(** * igraph_dqueue: the double ended queue of igraph (dqueue.pmt)

    A shallow embedding of the ring-buffer deque template and the proofs of
    what its specification says about it.

    The C code keeps four element pointers ([begin], [end], [stor_begin],
    [stor_end]) into one heap block and uses [end == NULL] as the "empty"
    marker.  The model follows it pointer by pointer:

    - a pointer to BASE is an integer address counted in elements, so that
      [p + 1] is the next element and [p - q] the number of elements in
      between; [NULL] is the address 0, below every block, which is how
      the comparisons of the source against a NULL [end] come out on the
      machines igraph runs on;
    - the heap is a finite map from allocated addresses to elements, with
      the table of live blocks that [free] consults;
    - the struct is passed and returned by value where the source updates
      it through the pointer [q];
    - undefined behaviour (a load or store outside the allocated addresses,
      an overlapping memcpy, freeing what is not a live block) is the
      [None] outcome of the heap monad;
    - the [assert]s on [q] and [q->stor_begin] guard against a missing or
      destroyed queue and compile to nothing in a release build; they are
      left out, and every statement below is about initialised queues;
    - [IGRAPH_ERROR(msg, code)] reports the error and returns [code];
    - sizes and indices are unbounded integers: for a buffer that fits a
      machine the arithmetic of the source stays far from the limits of a
      long.

    Definitions come first (the source, then what the statements need),
    the lemmas follow, the claims of the specification are the theorems
    [C1_..] to [C10_..] near the end, and the last part runs them on
    concrete queues. *)

From stdpp Require Import base numbers option list list_numbers gmap strings pretty.

Local Open Scope Z_scope.

(** Modelled from the spec: the error codes, declared in igraph_error.h,
    which is not among the sources.  The specification has two outcomes for
    init and push, success and OutOfMemory; the source writes them
    [return 0] and [IGRAPH_ERROR(.., IGRAPH_ENOMEM)]. *)
Inductive igraph_error_type_t : Set :=
| IGRAPH_SUCCESS
| IGRAPH_ENOMEM.

Definition NULL : Z := 0.

(** The struct TYPE(igraph_dqueue) as the source uses it, four pointers to
    BASE; [end] is a keyword here, hence [end_]. *)
Record igraph_dqueue : Set := mk_dqueue {
  begin : Z;
  end_ : Z;
  stor_begin : Z;
  stor_end : Z
}.

Definition set_begin (q : igraph_dqueue) (p : Z) : igraph_dqueue :=
  mk_dqueue p (end_ q) (stor_begin q) (stor_end q).
Definition set_end (q : igraph_dqueue) (p : Z) : igraph_dqueue :=
  mk_dqueue (begin q) p (stor_begin q) (stor_end q).
Definition set_stor_begin (q : igraph_dqueue) (p : Z) : igraph_dqueue :=
  mk_dqueue (begin q) (end_ q) p (stor_end q).
Definition set_stor_end (q : igraph_dqueue) (p : Z) : igraph_dqueue :=
  mk_dqueue (begin q) (end_ q) (stor_begin q) p.

Section dqueue.

(** The template parameter BASE and the value the literal [0] has in it. *)
Context {BASE : Type} (zero : BASE).

(** ** Heap *)

Record heap : Type := Heap {
  mem : gmap Z BASE;      (* contents of every allocated address *)
  blocks : gmap Z Z       (* live blocks: first address -> number of elements *)
}.

(** The C allocator behind the macros igraph_Calloc and igraph_Free of
    igraph_memory.h is a parameter.  All that is assumed of it: asked for
    [n] elements in the heap [h] it either fails (answers [NULL]) or
    answers the first address of a run of [n] addresses none of which is
    allocated yet. *)
Class Allocator : Type := {
  alloc_pick : heap → Z → Z;
  alloc_pick_fresh : ∀ h n,
    alloc_pick h n ≠ NULL →
    0 < alloc_pick h n ∧ ∀ i, 0 ≤ i < n → mem h !! (alloc_pick h n + i) = None
}.

Context {allocator : Allocator}.

(** ** The heap monad: state passing, [None] is undefined behaviour *)

Definition M (A : Type) : Type := heap → option (A * heap).

Definition ret {A : Type} (a : A) : M A := λ h, Some (a, h).

Definition bind {A B : Type} (m : M A) (k : A → M B) : M B :=
  λ h, match m h with
       | Some (a, h') => k a h'
       | None => None
       end.

Notation "x <- m ;; k" := (bind m (λ x, k))
  (at level 100, m at next level, right associativity).
Notation "m ;; k" := (bind m (λ _, k))
  (at level 100, right associativity).

Definition load (p : Z) : M BASE :=
  λ h, match mem h !! p with
       | Some v => Some (v, h)
       | None => None
       end.

Definition store (p : Z) (v : BASE) : M unit :=
  λ h, match mem h !! p with
       | Some _ => Some (tt, Heap (<[p:=v]> (mem h)) (blocks h))
       | None => None
       end.

Definition fill_range (p n : Z) (v : BASE) (m : gmap Z BASE) : gmap Z BASE :=
  foldr (λ a acc, <[a:=v]> acc) m (seqZ p n).

Definition drop_range (p n : Z) (m : gmap Z BASE) : gmap Z BASE :=
  foldr (λ a acc, delete a acc) m (seqZ p n).

(** igraph_Calloc(n, BASE): [n] zeroed elements, or NULL. *)
Definition igraph_Calloc (n : Z) : M Z :=
  λ h, let p := alloc_pick h n in
       if decide (p = NULL) then Some (NULL, h)
       else Some (p, Heap (fill_range p n zero (mem h)) (<[p:=n]> (blocks h))).

(** igraph_Free(p): free(NULL) does nothing, freeing a live block releases
    its addresses, anything else is undefined. *)
Definition igraph_Free (p : Z) : M unit :=
  λ h, if decide (p = NULL) then Some (tt, h)
       else match blocks h !! p with
            | Some n => Some (tt, Heap (drop_range p n (mem h)) (delete p (blocks h)))
            | None => None
            end.

Fixpoint copy_loop (k : nat) (dst src : Z) : M unit :=
  match k with
  | O => ret tt
  | S k' => v <- load src ;; store dst v ;; copy_loop k' (dst + 1) (src + 1)
  end.

(** memcpy(dst, src, n * sizeof(BASE)): undefined when the two ranges
    overlap or leave the allocated addresses; a negative [n] would convert
    to an enormous size_t and is undefined as well. *)
Definition memcpy (dst src n : Z) : M unit :=
  if decide (0 ≤ n ∧ (dst + n ≤ src ∨ src + n ≤ dst))
  then copy_loop (Z.to_nat n) dst src
  else λ _, None.

(** ** The operations, in the order of the source *)

Definition igraph_dqueue_init (q : igraph_dqueue) (size : Z)
  : M (igraph_error_type_t * igraph_dqueue) :=
  let size := if decide (size ≤ 0) then 1 else size in
  p <- igraph_Calloc size ;;
  let q := set_stor_begin q p in
  if decide (stor_begin q = 0) then ret (IGRAPH_ENOMEM, q)
  else
    let q := set_stor_end q (stor_begin q + size) in
    let q := set_begin q (stor_begin q) in
    let q := set_end q NULL in
    ret (IGRAPH_SUCCESS, q).

Definition igraph_dqueue_destroy (q : igraph_dqueue) : M igraph_dqueue :=
  if decide (stor_begin q ≠ 0) then
    igraph_Free (stor_begin q) ;;
    ret (set_stor_begin q 0)
  else ret q.

Definition igraph_dqueue_empty (q : igraph_dqueue) : bool :=
  bool_decide (end_ q = NULL).

Definition igraph_dqueue_clear (q : igraph_dqueue) : igraph_dqueue :=
  let q := set_begin q (stor_begin q) in
  set_end q NULL.

Definition igraph_dqueue_full (q : igraph_dqueue) : bool :=
  bool_decide (begin q = end_ q).

Definition igraph_dqueue_size (q : igraph_dqueue) : Z :=
  if decide (end_ q = NULL) then 0
  else if decide (begin q < end_ q) then end_ q - begin q
  else stor_end q - begin q + end_ q - stor_begin q.

Definition igraph_dqueue_head (q : igraph_dqueue) : M BASE :=
  load (begin q).

Definition igraph_dqueue_back (q : igraph_dqueue) : M BASE :=
  if decide (end_ q = stor_begin q) then load (stor_end q - 1)
  else load (end_ q - 1).

Definition igraph_dqueue_pop (q : igraph_dqueue) : M (BASE * igraph_dqueue) :=
  tmp <- load (begin q) ;;
  let q := set_begin q (begin q + 1) in
  let q := if decide (begin q = stor_end q) then set_begin q (stor_begin q) else q in
  let q := if decide (begin q = end_ q) then set_end q NULL else q in
  ret (tmp, q).

Definition igraph_dqueue_pop_back (q : igraph_dqueue) : M (BASE * igraph_dqueue) :=
  r <- (if decide (end_ q ≠ stor_begin q) then
          tmp <- load (end_ q - 1) ;;
          ret (tmp, set_end q (end_ q - 1))
        else
          tmp <- load (stor_end q - 1) ;;
          ret (tmp, set_end q (stor_end q - 1))) ;;
  let '(tmp, q) := r in
  let q := if decide (begin q = end_ q) then set_end q NULL else q in
  ret (tmp, q).

Definition igraph_dqueue_push (q : igraph_dqueue) (elem : BASE)
  : M (igraph_error_type_t * igraph_dqueue) :=
  if decide (begin q ≠ end_ q) then
    (* not full *)
    let q := if decide (end_ q = NULL) then set_end q (begin q) else q in
    store (end_ q) elem ;;
    let q := set_end q (end_ q + 1) in
    let q := if decide (end_ q = stor_end q) then set_end q (stor_begin q) else q in
    ret (IGRAPH_SUCCESS, q)
  else
    (* full, allocate more storage *)
    let old := stor_begin q in
    bigger <- igraph_Calloc (2 * (stor_end q - stor_begin q) + 1) ;;
    if decide (bigger = 0) then ret (IGRAPH_ENOMEM, q)
    else
      (if decide (stor_end q - begin q ≠ 0) then
         memcpy bigger (begin q) (stor_end q - begin q)
       else ret tt) ;;
      (if decide (end_ q - stor_begin q > 0) then
         memcpy (bigger + (stor_end q - begin q)) (stor_begin q)
                (end_ q - stor_begin q)
       else ret tt) ;;
      let q := set_end q (bigger + (stor_end q - stor_begin q)) in
      let q := set_stor_end q (bigger + 2 * (stor_end q - stor_begin q) + 1) in
      let q := set_stor_begin q bigger in
      let q := set_begin q bigger in
      store (end_ q) elem ;;
      let q := set_end q (end_ q + 1) in
      let q := if decide (end_ q = stor_end q) then set_end q (stor_begin q) else q in
      igraph_Free old ;;
      ret (IGRAPH_SUCCESS, q).

Definition igraph_dqueue_e (q : igraph_dqueue) (idx : Z) : M BASE :=
  if decide (begin q + idx < end_ q ∨
             (begin q >= end_ q ∧ begin q + idx < stor_end q)) then
    load (begin q + idx)
  else if decide (begin q >= end_ q ∧ stor_begin q + idx < end_ q) then
    let idx := idx - (stor_end q - begin q) in
    load (stor_begin q + idx)
  else ret zero.

(** ** The growth step, as the specification words it

    "Allocate a new buffer of size 2 * capacity + 1; copy the live range
    into the new buffer starting at physical offset 0, by copying the
    segment from logical_begin to the old physical end, then the segment
    from the physical start to logical_end; release the old buffer; set
    logical_begin = 0, logical_end = old_capacity, capacity =
    new_capacity."  The result is [None] when the allocation fails.  This
    definition follows the specification, not the source;
    [igraph_dqueue_push] above is the source. *)
Definition grow (q : igraph_dqueue) : M (option igraph_dqueue) :=
  let old_capacity := stor_end q - stor_begin q in
  let new_capacity := 2 * old_capacity + 1 in
  buffer <- igraph_Calloc new_capacity ;;
  if decide (buffer = NULL) then ret None
  else
    memcpy buffer (begin q) (stor_end q - begin q) ;;
    memcpy (buffer + (stor_end q - begin q)) (stor_begin q)
           (end_ q - stor_begin q) ;;
    igraph_Free (stor_begin q) ;;
    ret (Some {| begin := buffer + 0;
                 end_ := buffer + old_capacity;
                 stor_begin := buffer;
                 stor_end := buffer + new_capacity |}).

(** ** Callers: runs of pushes and pops

    [push_all] pushes the elements in order and stops at the first error
    code, as a caller checking every return value does. *)

Fixpoint push_all (q : igraph_dqueue) (es : list BASE)
  : M (igraph_error_type_t * igraph_dqueue) :=
  match es with
  | [] => ret (IGRAPH_SUCCESS, q)
  | e :: es' =>
      r <- igraph_dqueue_push q e ;;
      match r.1 with
      | IGRAPH_SUCCESS => push_all r.2 es'
      | IGRAPH_ENOMEM => ret r
      end
  end.

Fixpoint pop_n (n : nat) (q : igraph_dqueue) : M (list BASE * igraph_dqueue) :=
  match n with
  | O => ret ([], q)
  | S n' =>
      r <- igraph_dqueue_pop q ;;
      rs <- pop_n n' r.2 ;;
      ret (r.1 :: rs.1, rs.2)
  end.

Fixpoint pop_back_n (n : nat) (q : igraph_dqueue) : M (list BASE * igraph_dqueue) :=
  match n with
  | O => ret ([], q)
  | S n' =>
      r <- igraph_dqueue_pop_back q ;;
      rs <- pop_back_n n' r.2 ;;
      ret (r.1 :: rs.1, rs.2)
  end.

(** ** Well-formed states and their logical contents *)

Definition capacity (q : igraph_dqueue) : Z := stor_end q - stor_begin q.

(** The representation invariant: the storage is a live block of at least
    one element, [begin] points into it, and [end] is NULL or points into
    it. *)
Definition valid (h : heap) (q : igraph_dqueue) : Prop :=
  NULL < stor_begin q ∧
  stor_begin q < stor_end q ∧
  blocks h !! stor_begin q = Some (capacity q) ∧
  Forall (λ a, is_Some (mem h !! a)) (seqZ (stor_begin q) (capacity q)) ∧
  stor_begin q ≤ begin q < stor_end q ∧
  (end_ q = NULL ∨ stor_begin q ≤ end_ q < stor_end q).

#[global] Instance valid_dec h q : Decision (valid h q).
Proof. unfold valid. apply _. Defined.

Definition read (h : heap) (a : Z) : BASE := default zero (mem h !! a).

Definition reads (h : heap) (p n : Z) : list BASE := read h <$> seqZ p n.

(** The live elements in logical order, read off the buffer the way
    igraph_dqueue_fprint walks it: nothing when [end] is NULL, one piece
    when [begin < end], two pieces otherwise. *)
Definition elements (h : heap) (q : igraph_dqueue) : list BASE :=
  if decide (end_ q = NULL) then []
  else if decide (begin q < end_ q) then reads h (begin q) (end_ q - begin q)
  else reads h (begin q) (stor_end q - begin q)
       ++ reads h (stor_begin q) (end_ q - stor_begin q).

(** The states a client can bring a dqueue into: initialise it, then push,
    pop and pop_back (the last two on a non-empty queue, as their
    documentation demands) and clear. *)
Inductive reachable : heap → igraph_dqueue → Prop :=
| reach_init h q size h' q' :
    igraph_dqueue_init q size h = Some ((IGRAPH_SUCCESS, q'), h') →
    reachable h' q'
| reach_push h q elem r h' q' :
    reachable h q →
    igraph_dqueue_push q elem h = Some ((r, q'), h') →
    reachable h' q'
| reach_pop h q x h' q' :
    reachable h q →
    igraph_dqueue_empty q = false →
    igraph_dqueue_pop q h = Some ((x, q'), h') →
    reachable h' q'
| reach_pop_back h q x h' q' :
    reachable h q →
    igraph_dqueue_empty q = false →
    igraph_dqueue_pop_back q h = Some ((x, q'), h') →
    reachable h' q'
| reach_clear h q :
    reachable h q →
    reachable h (igraph_dqueue_clear q).

(** ** Printing: the OUT_FORMAT part of the template

    [OUT_FORMAT] is the printf format of one element, a parameter of the
    template like [BASE]; [out_format x] is the text it gives for [x].
    The FILE is the list of the texts written to it so far, one entry for
    each fprintf. *)

Context (out_format : BASE → string).

Definition newline : string := String (Ascii.ascii_of_nat 10) EmptyString.

(** One [while (p != stop) { fprintf(file, " " OUT_FORMAT, *p); p++; }].
    It is run for at most [fuel] rounds; the inner [None] says that the
    fuel did not suffice. *)
Fixpoint fprint_loop (fuel : nat) (p stop : Z) (file : list string)
  : M (option (list string)) :=
  if decide (p ≠ stop) then
    match fuel with
    | O => ret None
    | S fuel' =>
        x <- load p ;;
        fprint_loop fuel' (p + 1) stop
                    (file ++ [String.append " " (out_format x)])
    end
  else ret (Some file).

Definition igraph_dqueue_fprint (fuel : nat) (q : igraph_dqueue)
    (file : list string) : M (option (Z * list string)) :=
  r <- (if decide (end_ q ≠ NULL) then
          (* There is one element at least *)
          let p := begin q in
          x <- load p ;;
          let file := file ++ [out_format x] in
          let p := p + 1 in
          if decide (end_ q > begin q) then
            (* Q is in one piece *)
            fprint_loop fuel p (end_ q) file
          else
            (* Q is in two pieces *)
            r <- fprint_loop fuel p (stor_end q) file ;;
            match r with
            | None => ret None
            | Some file =>
                let p := stor_begin q in
                fprint_loop fuel p (end_ q) file
            end
        else ret (Some file)) ;;
  match r with
  | None => ret None
  | Some file => ret (Some (0, file ++ [newline]))
  end.

(** igraph_dqueue_print: fprint to stdout. *)
Definition igraph_dqueue_print (fuel : nat) (q : igraph_dqueue)
    (stdout : list string) : M (option (Z * list string)) :=
  igraph_dqueue_fprint fuel q stdout.

(** The text of a list of elements: the elements separated by one space,
    then a newline. *)
Definition rendered (l : list BASE) : list string :=
  match l with
  | [] => [newline]
  | x :: l' =>
      out_format x :: ((λ y, String.append " " (out_format y)) <$> l')
      ++ [newline]
  end.

(** ** A client that interleaves the operations

    The operations a work-list client performs, and the client itself: it
    pops (from either end) only after igraph_dqueue_empty has answered
    false, as the documentation of pop and pop_back demands, it stops at
    the first push that reports an error, and it collects what the pops
    return. *)

Inductive dq_op : Type :=
| OpPush (elem : BASE)
| OpPop
| OpPopBack
| OpClear.

Fixpoint run_ops (q : igraph_dqueue) (ops : list dq_op)
  : M (igraph_error_type_t * list BASE * igraph_dqueue) :=
  match ops with
  | [] => ret (IGRAPH_SUCCESS, [], q)
  | OpPush elem :: ops' =>
      r <- igraph_dqueue_push q elem ;;
      match r.1 with
      | IGRAPH_SUCCESS => run_ops r.2 ops'
      | IGRAPH_ENOMEM => ret (IGRAPH_ENOMEM, [], r.2)
      end
  | OpPop :: ops' =>
      if igraph_dqueue_empty q then run_ops q ops'
      else
        r <- igraph_dqueue_pop q ;;
        rs <- run_ops r.2 ops' ;;
        ret (rs.1.1, r.1 :: rs.1.2, rs.2)
  | OpPopBack :: ops' =>
      if igraph_dqueue_empty q then run_ops q ops'
      else
        r <- igraph_dqueue_pop_back q ;;
        rs <- run_ops r.2 ops' ;;
        ret (rs.1.1, r.1 :: rs.1.2, rs.2)
  | OpClear :: ops' => run_ops (igraph_dqueue_clear q) ops'
  end.

(** The same client on a plain list, head of the queue first: what the
    pops return, and the list that is left. *)
Fixpoint list_ops (l : list BASE) (ops : list dq_op) : list BASE * list BASE :=
  match ops with
  | [] => ([], l)
  | OpPush elem :: ops' => list_ops (l ++ [elem]) ops'
  | OpPop :: ops' =>
      match l with
      | [] => list_ops [] ops'
      | x :: l' => let r := list_ops l' ops' in (x :: r.1, r.2)
      end
  | OpPopBack :: ops' =>
      match last l with
      | None => list_ops l ops'
      | Some x => let r := list_ops (removelast l) ops' in (x :: r.1, r.2)
      end
  | OpClear :: ops' => list_ops [] ops'
  end.

(** The heap without the buffer of the queue: everything the queue does
    not own. *)
Definition outside (h : heap) (q : igraph_dqueue) : gmap Z BASE :=
  drop_range (stor_begin q) (capacity q) (mem h).

End dqueue.

(** ** A concrete allocator

    A bump allocator over a memory of [limit] addresses: it hands out the
    addresses above everything allocated so far and fails when the request
    does not fit below [limit]. *)

Section bump.

Context {BASE : Type}.

Definition top (m : gmap Z BASE) : Z :=
  map_fold (λ k _ acc, Z.max (k + 1) acc) 1 m.

Lemma top_spec (m : gmap Z BASE) :
  0 < top m ∧ ∀ k, is_Some (m !! k) → k < top m.
Proof.
  unfold top. apply (map_fold_weak_ind (λ r m, 0 < r ∧ ∀ k, is_Some (m !! k) → k < r)).
  - split; [lia|]. intros k [v Hv]. by rewrite lookup_empty in Hv.
  - intros i x m' r Hi [Hr IH]. split; [lia|]. intros k.
    rewrite lookup_insert. destruct (decide (i = k)) as [->|Hne]; [lia|].
    intros Hk. specialize (IH k Hk). lia.
Qed.

Definition bump_pick (limit : Z) (h : heap (BASE := BASE)) (n : Z) : Z :=
  if decide (top (mem h) + n ≤ limit) then top (mem h) else NULL.

Lemma bump_pick_fresh limit h n :
  bump_pick limit h n ≠ NULL →
  0 < bump_pick limit h n ∧
  ∀ i, 0 ≤ i < n → mem h !! (bump_pick limit h n + i) = None.
Proof.
  unfold bump_pick. destruct (top_spec (mem h)) as [Hpos Habove].
  case_decide; [|done]. intros _. split; [done|]. intros i Hi.
  destruct (mem h !! (top (mem h) + i)) eqn:E; [|done].
  assert (top (mem h) + i < top (mem h)) by (apply Habove; eauto). lia.
Qed.

Definition bump_allocator (limit : Z) : Allocator (BASE := BASE) :=
  {| alloc_pick := bump_pick limit; alloc_pick_fresh := bump_pick_fresh limit |}.

End bump.

(** ** Facts about ranges of the heap *)

Section memory_facts.

Context {BASE : Type}.

Implicit Types (m : gmap Z BASE).

Lemma lookup_fill_list (l : list Z) (v : BASE) m (a : Z) :
  foldr (λ a acc, <[a:=v]> acc) m l !! a
  = if decide (a ∈ l) then Some v else m !! a.
Proof.
  induction l as [|x l IH]; simpl.
  - destruct (decide (a ∈ [])) as [H|_]; [by apply elem_of_nil in H|done].
  - rewrite lookup_insert. destruct (decide (x = a)) as [->|Hne].
    + by rewrite decide_True by left.
    + rewrite IH.
      destruct (decide (a ∈ l)) as [Hl|Hl], (decide (a ∈ x :: l)) as [Hx|Hx];
        try done.
      * exfalso. apply Hx. by right.
      * apply elem_of_cons in Hx as [Hx|Hx]; congruence.
Qed.

Lemma lookup_drop_list (l : list Z) m (a : Z) :
  foldr (λ a acc, delete a acc) m l !! a
  = if decide (a ∈ l) then None else m !! a.
Proof.
  induction l as [|x l IH]; simpl.
  - destruct (decide (a ∈ [])) as [H|_]; [by apply elem_of_nil in H|done].
  - rewrite lookup_delete. destruct (decide (x = a)) as [->|Hne].
    + by rewrite decide_True by left.
    + rewrite IH.
      destruct (decide (a ∈ l)) as [Hl|Hl], (decide (a ∈ x :: l)) as [Hx|Hx];
        try done.
      * exfalso. apply Hx. by right.
      * apply elem_of_cons in Hx as [Hx|Hx]; congruence.
Qed.

Lemma lookup_fill_range p n v m a :
  fill_range p n v m !! a = if decide (p ≤ a < p + n) then Some v else m !! a.
Proof.
  unfold fill_range. rewrite lookup_fill_list.
  repeat case_decide; try done; exfalso; rewrite elem_of_seqZ in *; lia.
Qed.

Lemma lookup_drop_range p n m a :
  drop_range p n m !! a = if decide (p ≤ a < p + n) then None else m !! a.
Proof.
  unfold drop_range. rewrite lookup_drop_list.
  repeat case_decide; try done; exfalso; rewrite elem_of_seqZ in *; lia.
Qed.

End memory_facts.

(** ** Facts about reading the heap *)

Section reading.

Context {BASE : Type} (zero : BASE).

Implicit Types (h : heap (BASE := BASE)).

Lemma lookup_read h a : is_Some (mem h !! a) → mem h !! a = Some (read zero h a).
Proof. intros [v Hv]. unfold read. by rewrite Hv. Qed.

Lemma load_cell h a :
  is_Some (mem h !! a) → load a h = Some (read zero h a, h).
Proof. intros Ha. unfold load. by rewrite (lookup_read h a Ha). Qed.

Lemma store_cell h a v :
  is_Some (mem h !! a) →
  store a v h = Some (tt, Heap (<[a:=v]> (mem h)) (blocks h)).
Proof. intros [w Hw]. unfold store. by rewrite Hw. Qed.

Lemma reads_nil h p n : n ≤ 0 → reads zero h p n = [].
Proof. intros. unfold reads. by rewrite seqZ_nil. Qed.

Lemma reads_cons h p n :
  0 < n → reads zero h p n = read zero h p :: reads zero h (p + 1) (n - 1).
Proof. intros. unfold reads. rewrite seqZ_cons by done. done. Qed.

Lemma reads_app h p n1 n2 :
  0 ≤ n1 → 0 ≤ n2 →
  reads zero h p (n1 + n2) = reads zero h p n1 ++ reads zero h (p + n1) n2.
Proof. intros. unfold reads. by rewrite seqZ_app, fmap_app. Qed.

Lemma reads_one h p : reads zero h p 1 = [read zero h p].
Proof. by rewrite reads_cons, reads_nil by lia. Qed.

Lemma reads_snoc h p n :
  0 ≤ n → reads zero h p (n + 1) = reads zero h p n ++ [read zero h (p + n)].
Proof. intros. by rewrite reads_app, reads_one by lia. Qed.

Lemma length_reads h p n : length (reads zero h p n) = Z.to_nat n.
Proof. unfold reads. by rewrite length_fmap, length_seqZ. Qed.

Lemma lookup_reads h p n (i : nat) :
  Z.of_nat i < n → reads zero h p n !! i = Some (read zero h (p + Z.of_nat i)).
Proof.
  intros. unfold reads. by rewrite list_lookup_fmap, lookup_seqZ_lt.
Qed.

(** Two ranges that hold the same cells read the same. *)
Lemma reads_shift h h' p p' n :
  (∀ i, 0 ≤ i < n → mem h' !! (p' + i) = mem h !! (p + i)) →
  reads zero h' p' n = reads zero h p n.
Proof.
  intros Hc. apply list_eq. intros i.
  destruct (decide (Z.of_nat i < n)) as [Hi|Hi].
  - rewrite !lookup_reads by done. unfold read. by rewrite Hc by lia.
  - rewrite !lookup_ge_None_2; [done|rewrite length_reads; lia..].
Qed.

Lemma reads_ext h h' p n :
  (∀ a, p ≤ a < p + n → mem h' !! a = mem h !! a) →
  reads zero h' p n = reads zero h p n.
Proof. intros Hc. apply reads_shift. intros i Hi. apply Hc. lia. Qed.

Lemma reads_last h p n :
  0 < n →
  reads zero h p n = reads zero h p (n - 1) ++ [read zero h (p + n - 1)].
Proof.
  intros. replace n with ((n - 1) + 1) at 1 by lia.
  rewrite reads_snoc by lia. repeat (f_equal; try lia).
Qed.

Lemma cells_store h a v (l : list Z) :
  Forall (λ x, is_Some (mem h !! x)) l →
  Forall (λ x, is_Some (<[a:=v]> (mem h) !! x)) l.
Proof.
  intros Hl. eapply Forall_impl; [exact Hl|]. intros x Hx. simpl in *.
  rewrite lookup_insert. case_decide; eauto.
Qed.

Lemma read_store_eq h a v a' :
  a' = a → read zero (Heap (<[a:=v]> (mem h)) (blocks h)) a' = v.
Proof. intros ->. unfold read. simpl. by rewrite lookup_insert_eq. Qed.

Lemma reads_store h a v p n :
  (a < p ∨ p + n ≤ a) →
  reads zero (Heap (<[a:=v]> (mem h)) (blocks h)) p n = reads zero h p n.
Proof.
  intros Ha. apply reads_ext. intros x Hx. simpl.
  rewrite lookup_insert_ne by lia. done.
Qed.

End reading.

(** ** Proof automation for the case analyses on the four pointers *)

Lemma valid_cell {BASE : Type} (h : heap (BASE := BASE)) (q : igraph_dqueue) (a : Z) :
  valid h q → stor_begin q ≤ a < stor_end q → is_Some (mem h !! a).
Proof.
  intros (_ & _ & _ & Hc & _) Ha. rewrite Forall_seqZ in Hc.
  apply Hc. unfold capacity. lia.
Qed.

Ltac dq_open q Hv :=
  let Hc := fresh "Hcell" in
  pose proof (λ a, valid_cell _ _ a Hv) as Hc;
  destruct q as [b e sb se];
  unfold valid, capacity in Hv; simpl in Hv, Hc;
  destruct Hv as (Hbase & Hcap & Hblk & Hcells & Hb & He);
  unfold NULL in *.

Ltac dq_split :=
  repeat (case_decide; unfold NULL in *; simpl in *; try lia).

Ltac reads_drop :=
  repeat match goal with
         | |- context [reads ?z ?h ?p ?n] => rewrite (reads_nil z h p n) by lia
         end;
  rewrite ?app_nil_r; simpl.

Ltac reads_eq := repeat (f_equal; try lia).

Ltac reads_stored :=
  repeat match goal with
         | |- context [reads ?z (Heap (<[?a:=?v]> (mem ?h)) (blocks ?h)) ?p ?n] =>
             rewrite (reads_store z h a v p n) by lia
         end;
  repeat match goal with
         | |- context [read ?z (Heap (<[?a:=?v]> (mem ?h)) (blocks ?h)) ?a'] =>
             rewrite (read_store_eq z h a v a') by lia
         end.

Ltac dq_record :=
  cbn [begin end_ stor_begin stor_end
       set_begin set_end set_stor_begin set_stor_end fst snd mem blocks].

(** ** The operations on well-formed states *)

Section correctness.

Context {BASE : Type} (zero : BASE).
Context {allocator : Allocator (BASE := BASE)}.

Implicit Types (h : heap (BASE := BASE)) (q : igraph_dqueue).

Lemma size_elements h q :
  valid h q → igraph_dqueue_size q = Z.of_nat (length (elements zero h q)).
Proof.
  intros Hv. dq_open q Hv. unfold igraph_dqueue_size, elements. simpl.
  dq_split; unfold NULL in *; try done;
    rewrite ?length_app, !length_reads; lia.
Qed.

Lemma elements_nil h q :
  valid h q → (elements zero h q = [] ↔ end_ q = NULL).
Proof.
  intros Hv. split.
  - intros Hn. pose proof (size_elements h q Hv) as Hs. rewrite Hn in Hs.
    dq_open q Hv. unfold igraph_dqueue_size in Hs. simpl in *.
    revert Hs. dq_split.
  - intros Hn. unfold elements. by rewrite decide_True.
Qed.

Lemma pop_spec h q :
  valid h q → end_ q ≠ NULL →
  ∃ q', igraph_dqueue_pop q h = Some ((read zero h (begin q), q'), h) ∧
        valid h q' ∧
        capacity q' = capacity q ∧
        elements zero h q = read zero h (begin q) :: elements zero h q'.
Proof.
  intros Hv Hne. dq_open q Hv. simpl in *.
  unfold igraph_dqueue_pop, bind, ret. simpl.
  rewrite (load_cell zero) by (apply Hcell; lia).
  eexists. split; [reflexivity|].
  unfold valid, elements, capacity.
  dq_split.
  all: repeat split; try done; try lia.
  all: rewrite (reads_cons zero h b) by lia; reads_drop; reads_eq.
Qed.

Lemma pop_back_spec h q :
  valid h q → end_ q ≠ NULL →
  ∃ x q', igraph_dqueue_pop_back q h = Some ((x, q'), h) ∧
          valid h q' ∧
          capacity q' = capacity q ∧
          elements zero h q = elements zero h q' ++ [x].
Proof.
  intros Hv Hne. dq_open q Hv. simpl in *.
  unfold igraph_dqueue_pop_back, bind, ret. simpl.
  destruct (decide (e ≠ sb)) as [Hesb|Hesb]; simpl.
  - rewrite (load_cell zero) by (apply Hcell; lia). simpl.
    eexists _, _. split; [reflexivity|].
    unfold valid, elements, capacity.
    dq_split.
    all: repeat split; try done; try lia.
    all: first [ rewrite (reads_last zero h sb (e - sb)) by lia
               | rewrite (reads_last zero h b (e - b)) by lia ].
    all: reads_drop; rewrite <- ?app_assoc; reads_eq.
  - rewrite (load_cell zero) by (apply Hcell; lia). simpl.
    eexists _, _. split; [reflexivity|].
    unfold valid, elements, capacity.
    dq_split.
    all: repeat split; try done; try lia.
    all: rewrite (reads_last zero h b (se - b)) by lia.
    all: reads_drop; rewrite <- ?app_assoc; reads_eq.
Qed.

(** The branch of push that is taken when [begin != end]. *)
Lemma push_not_full_spec h q elem :
  valid h q → begin q ≠ end_ q →
  ∃ q' h', igraph_dqueue_push zero q elem h = Some ((IGRAPH_SUCCESS, q'), h') ∧
           valid h' q' ∧
           stor_begin q' = stor_begin q ∧ stor_end q' = stor_end q ∧
           begin q' = begin q ∧
           blocks h' = blocks h ∧ dom (mem h') = dom (mem h) ∧
           elements zero h' q' = elements zero h q ++ [elem].
Proof.
  intros Hv Hne. dq_open q Hv. simpl in *.
  unfold igraph_dqueue_push, bind, ret. simpl.
  rewrite decide_True by done.
  destruct (decide (e = NULL)) as [He0|He0]; unfold NULL in He0; simpl.
  - rewrite store_cell by (apply Hcell; lia). simpl.
    eexists _, _. split; [reflexivity|].
    unfold valid, elements, capacity.
    dq_split.
    all: split_and!; try (done || lia); simpl.
    all: try by apply cells_store.
    all: try (apply dom_insert_lookup_L, Hcell; lia).
    all: reads_drop.
    all: first [ rewrite (reads_last zero _ b (se - b)) by lia
               | rewrite (reads_last zero _ b (b + 1 - b)) by lia ].
    all: reads_drop; reads_stored; reads_eq.
  - rewrite store_cell by (apply Hcell; lia). simpl.
    eexists _, _. split; [reflexivity|].
    unfold valid, elements, capacity.
    dq_split.
    all: split_and!; try (done || lia); simpl.
    all: try by apply cells_store.
    all: try (apply dom_insert_lookup_L, Hcell; lia).
    all: reads_drop.
    all: first [ rewrite (reads_last zero _ sb (e + 1 - sb)) by lia
               | rewrite (reads_last zero _ b (e + 1 - b)) by lia
               | rewrite (reads_last zero _ b (se - b)) by lia ].
    all: reads_drop; reads_stored; rewrite <- ?app_assoc; reads_eq.
Qed.

End correctness.

(** ** Growth: the full branch of push *)

Section growth.

Context {BASE : Type} (zero : BASE).
Context {allocator : Allocator (BASE := BASE)}.

Implicit Types (h : heap (BASE := BASE)) (q : igraph_dqueue).

Lemma copy_loop_spec (k : nat) : ∀ dst src h,
  (dst + Z.of_nat k ≤ src ∨ src + Z.of_nat k ≤ dst) →
  (∀ i, 0 ≤ i < Z.of_nat k → is_Some (mem h !! (src + i))) →
  (∀ i, 0 ≤ i < Z.of_nat k → is_Some (mem h !! (dst + i))) →
  ∃ h', copy_loop k dst src h = Some (tt, h') ∧
        blocks h' = blocks h ∧
        ∀ a, mem h' !! a =
             if decide (dst ≤ a < dst + Z.of_nat k) then mem h !! (src + (a - dst))
             else mem h !! a.
Proof.
  induction k as [|k IH]; intros dst src h Hdis Hsrc Hdst.
  - exists h. split_and!; [done..|]. intros a. case_decide; [lia|done].
  - simpl. unfold bind.
    destruct (Hsrc 0 ltac:(lia)) as [v Hv]. rewrite Z.add_0_r in Hv.
    unfold load. rewrite Hv.
    destruct (Hdst 0 ltac:(lia)) as [w Hw]. rewrite Z.add_0_r in Hw.
    unfold store. rewrite Hw.
    destruct (IH (dst + 1) (src + 1) (Heap (<[dst:=v]> (mem h)) (blocks h)))
      as (h' & Hrun & Hblk & Hmem).
    + lia.
    + intros i Hi. simpl. rewrite lookup_insert_ne by lia.
      replace (src + 1 + i) with (src + (1 + i)) by lia. apply Hsrc. lia.
    + intros i Hi. simpl. rewrite lookup_insert_ne by lia.
      replace (dst + 1 + i) with (dst + (1 + i)) by lia. apply Hdst. lia.
    + exists h'. split_and!; [done..|]. intros a. rewrite Hmem. simpl.
      repeat case_decide; try lia.
      * rewrite lookup_insert_ne by lia. f_equal. lia.
      * assert (a = dst) as -> by lia. rewrite lookup_insert_eq.
        by replace (src + (dst - dst)) with src by lia.
      * rewrite lookup_insert_ne by lia. done.
Qed.

Lemma memcpy_spec dst src n h :
  0 ≤ n →
  (dst + n ≤ src ∨ src + n ≤ dst) →
  (∀ i, 0 ≤ i < n → is_Some (mem h !! (src + i))) →
  (∀ i, 0 ≤ i < n → is_Some (mem h !! (dst + i))) →
  ∃ h', memcpy dst src n h = Some (tt, h') ∧
        blocks h' = blocks h ∧
        ∀ a, mem h' !! a =
             if decide (dst ≤ a < dst + n) then mem h !! (src + (a - dst))
             else mem h !! a.
Proof.
  intros Hn Hdis Hsrc Hdst. unfold memcpy. rewrite decide_True by done.
  destruct (copy_loop_spec (Z.to_nat n) dst src h) as (h' & ? & ? & Hm);
    rewrite ?Z2Nat.id by done; try done.
  exists h'. split_and!; try done.
  intros a. rewrite Hm. by rewrite Z2Nat.id by done.
Qed.

(** A fresh run of addresses lies wholly before or wholly after a block
    whose addresses are all allocated. *)
Lemma fresh_disjoint h g n sb se :
  0 < n → sb < se →
  (∀ i, 0 ≤ i < n → mem h !! (g + i) = None) →
  (∀ a, sb ≤ a < se → is_Some (mem h !! a)) →
  g + n ≤ sb ∨ se ≤ g.
Proof.
  intros Hn Hlt Hfresh Hlive.
  destruct (decide (g + n ≤ sb)) as [|Hn1]; [by left|].
  destruct (decide (se ≤ g)) as [|Hn2]; [by right|]. exfalso.
  destruct (decide (sb ≤ g)) as [Hge|Hlt'].
  - destruct (Hlive g ltac:(lia)) as [v Hv].
    specialize (Hfresh 0 ltac:(lia)). rewrite Z.add_0_r in Hfresh. congruence.
  - destruct (Hlive sb ltac:(lia)) as [v Hv].
    specialize (Hfresh (sb - g) ltac:(lia)).
    replace (g + (sb - g)) with sb in Hfresh by lia. congruence.
Qed.

Lemma calloc_ok h n :
  alloc_pick h n ≠ NULL →
  igraph_Calloc zero n h
  = Some (alloc_pick h n,
          Heap (fill_range (alloc_pick h n) n zero (mem h))
               (<[alloc_pick h n:=n]> (blocks h))).
Proof. intros Hp. unfold igraph_Calloc. simpl. by rewrite decide_False. Qed.

Lemma calloc_fail h n :
  alloc_pick h n = NULL → igraph_Calloc zero n h = Some (NULL, h).
Proof. intros Hp. unfold igraph_Calloc. simpl. by rewrite decide_True. Qed.

Lemma memcpy_zero dst src h : memcpy dst src 0 h = Some (tt, h).
Proof. unfold memcpy. rewrite decide_True by lia. done. Qed.

(** The two copies of the growth step, run on the freshly allocated
    buffer [g]: the cells of the heap afterwards. *)
Lemma grow_copies h b sb se g :
  0 < sb → sb ≤ b < se →
  (∀ a, sb ≤ a < se → is_Some (mem h !! a)) →
  0 < g →
  (∀ i, 0 ≤ i < 2 * (se - sb) + 1 → mem h !! (g + i) = None) →
  let h1 := Heap (fill_range g (2 * (se - sb) + 1) zero (mem h))
                 (<[g:=2 * (se - sb) + 1]> (blocks h)) in
  ∃ h2 h3,
    memcpy g b (se - b) h1 = Some (tt, h2) ∧
    memcpy (g + (se - b)) sb (b - sb) h2 = Some (tt, h3) ∧
    blocks h3 = blocks h1 ∧
    ∀ a, mem h3 !! a =
         if decide (g ≤ a < g + (se - b)) then mem h !! (b + (a - g))
         else if decide (g + (se - b) ≤ a < g + (se - sb))
              then mem h !! (sb + (a - (g + (se - b))))
         else if decide (g ≤ a < g + (2 * (se - sb) + 1)) then Some zero
         else mem h !! a.
Proof.
  intros Hsb Hb Hlive Hg Hfresh h1.
  destruct (fresh_disjoint h g (2 * (se - sb) + 1) sb se) as [Hd|Hd];
    [lia|lia|done|done|..].
  all: assert (∀ a, mem h1 !! a =
                 if decide (g ≤ a < g + (2 * (se - sb) + 1)) then Some zero
                 else mem h !! a) as Hm1
    by (intros a; unfold h1; simpl; apply lookup_fill_range).
  all: destruct (memcpy_spec g b (se - b) h1) as (h2 & Hc2 & Hb2 & Hm2);
    [lia|lia
    |intros i Hi; rewrite Hm1, decide_False by lia; apply Hlive; lia
    |intros i Hi; rewrite Hm1, decide_True by lia; eauto|].
  all: destruct (memcpy_spec (g + (se - b)) sb (b - sb) h2) as (h3 & Hc3 & Hb3 & Hm3);
    [lia|lia
    |intros i Hi; rewrite Hm2, decide_False, Hm1, decide_False by lia;
     apply Hlive; lia
    |intros i Hi; rewrite Hm2, decide_False, Hm1, decide_True by lia; eauto|].
  all: exists h2, h3; split_and!; [done|done|congruence|].
  all: intros a; rewrite Hm3, !Hm2, !Hm1.
  all: repeat case_decide; try lia; try done.
Qed.

Lemma heap_eq h h' :
  blocks h = blocks h' → (∀ a, mem h !! a = mem h' !! a) → h = h'.
Proof.
  destruct h as [m bl], h' as [m' bl']. simpl. intros -> Hm.
  f_equal. by apply map_eq.
Qed.

(** The cells of the heap once growth has copied into the buffer [g] and
    released the old block. *)
Definition grown_cell h (b sb se g a : Z) : option BASE :=
  if decide (sb ≤ a < se) then None
  else if decide (g ≤ a < g + (se - b)) then mem h !! (b + (a - g))
  else if decide (g + (se - b) ≤ a < g + (se - sb))
       then mem h !! (sb + (a - (g + (se - b))))
  else if decide (g ≤ a < g + (2 * (se - sb) + 1)) then Some zero
  else mem h !! a.

Lemma grow_spec h q :
  valid h q → begin q = end_ q →
  let c := capacity q in
  let g := alloc_pick h (2 * c + 1) in
  g ≠ NULL →
  ∃ h1, grow zero q h
        = Some (Some (mk_dqueue (g + 0) (g + c) g (g + (2 * c + 1))), h1) ∧
        blocks h1 = delete (stor_begin q) (<[g:=2 * c + 1]> (blocks h)) ∧
        (g + (2 * c + 1) ≤ stor_begin q ∨ stor_end q ≤ g) ∧
        ∀ a, mem h1 !! a
             = grown_cell h (begin q) (stor_begin q) (stor_end q) g a.
Proof.
  intros Hv Hfull c g Hg. subst c g.
  destruct (alloc_pick_fresh h _ Hg) as [Hpos Hfresh]. revert Hg Hpos Hfresh.
  dq_open q Hv. simpl in Hfull. subst e. unfold capacity. dq_record.
  set (g := alloc_pick h (2 * (se - sb) + 1)). intros Hg Hpos Hfresh.
  destruct (fresh_disjoint h g (2 * (se - sb) + 1) sb se) as [Hd|Hd];
    [lia|lia|done|done|..].
  all: destruct (grow_copies h b sb se g) as (h2 & h3 & Hc2 & Hc3 & Hb3 & Hm3);
    [lia|lia|done|lia|done|].
  all: unfold grow, bind, ret; dq_record.
  all: rewrite calloc_ok by done; fold g.
  all: rewrite decide_False by done.
  all: rewrite Hc2, Hc3.
  all: unfold igraph_Free, NULL; rewrite decide_False by lia.
  all: rewrite Hb3; dq_record; rewrite lookup_insert_ne, Hblk by lia.
  all: eexists; split; [reflexivity|]; dq_record.
  all: split_and!; [done|lia|].
  all: intros a; rewrite lookup_drop_range, Hm3; unfold grown_cell.
  all: repeat case_decide; try lia; try done.
Qed.

(** The branch of push that is taken when [begin == end], when the
    allocation succeeds. *)
Lemma push_full_spec h q elem :
  valid h q → begin q = end_ q →
  let c := capacity q in
  let g := alloc_pick h (2 * c + 1) in
  g ≠ NULL →
  ∃ h', igraph_dqueue_push zero q elem h
        = Some ((IGRAPH_SUCCESS,
                 mk_dqueue g (g + c + 1) g (g + 2 * c + 1)), h') ∧
        blocks h' = delete (stor_begin q) (<[g:=2 * c + 1]> (blocks h)) ∧
        ∀ a, mem h' !! a
             = if decide (a = g + c) then Some elem
               else grown_cell h (begin q) (stor_begin q) (stor_end q) g a.
Proof.
  intros Hv Hfull c g Hg. subst c g.
  destruct (alloc_pick_fresh h _ Hg) as [Hpos Hfresh]. revert Hg Hpos Hfresh.
  dq_open q Hv. simpl in Hfull. subst e. unfold capacity. dq_record.
  set (g := alloc_pick h (2 * (se - sb) + 1)). intros Hg Hpos Hfresh.
  destruct (fresh_disjoint h g (2 * (se - sb) + 1) sb se) as [Hd|Hd];
    [lia|lia|done|done|..].
  all: destruct (grow_copies h b sb se g) as (h2 & h3 & Hc2 & Hc3 & Hb3 & Hm3);
    [lia|lia|done|lia|done|].
  all: unfold igraph_dqueue_push, bind, ret; dq_record.
  all: rewrite decide_False by (intros Hne; by apply Hne).
  all: rewrite calloc_ok by done; fold g.
  all: rewrite (decide_False (P := g = 0)) by done.
  all: rewrite (decide_True (P := se - b ≠ 0)) by lia.
  all: rewrite Hc2.
  all: assert (∃ h3', (if decide (b - sb > 0)
                       then memcpy (g + (se - b)) sb (b - sb)
                       else λ h0, Some ((), h0)) h2 = Some ((), h3') ∧ h3' = h3)
         as (h3' & -> & ->)
         by (case_decide;
             [eauto
             |replace (b - sb) with 0 in Hc3 by lia;
              rewrite memcpy_zero in Hc3; eauto]).
  all: assert (is_Some (mem h3 !! (g + (se - sb)))) as Hslot
         by (rewrite Hm3; repeat case_decide; try lia; eauto).
  all: rewrite store_cell by done; dq_record.
  all: rewrite (decide_False (P := g + (se - sb) + 1 = g + 2 * (se - sb) + 1))
         by lia.
  all: unfold igraph_Free, NULL; rewrite decide_False by lia; dq_record.
  all: rewrite Hb3; dq_record; rewrite lookup_insert_ne, Hblk by lia.
  all: eexists; split; [reflexivity|]; dq_record.
  all: split; [done|].
  all: intros a; rewrite lookup_drop_range, lookup_insert, Hm3; unfold grown_cell.
  all: repeat case_decide; try lia; try done.
Qed.

End growth.

(** ** Push and init on well-formed states; reachable states *)

Section push_init.

Context {BASE : Type} (zero : BASE).
Context {allocator : Allocator (BASE := BASE)}.

Implicit Types (h : heap (BASE := BASE)) (q : igraph_dqueue).

Lemma push_full_elements h q elem :
  valid h q → begin q = end_ q →
  alloc_pick h (2 * capacity q + 1) ≠ NULL →
  ∃ q' h', igraph_dqueue_push zero q elem h = Some ((IGRAPH_SUCCESS, q'), h') ∧
           valid h' q' ∧
           capacity q' = 2 * capacity q + 1 ∧
           elements zero h' q' = elements zero h q ++ [elem].
Proof.
  intros Hv Hfull Hg.
  destruct (push_full_spec zero h q elem Hv Hfull Hg) as (h' & Hrun & Hblk' & Hmem).
  destruct (grow_spec zero h q Hv Hfull Hg) as (_ & _ & _ & Hdis & _).
  destruct (alloc_pick_fresh h _ Hg) as [Hpos _].
  revert Hrun Hblk' Hmem Hdis Hpos Hg.
  dq_open q Hv. simpl in Hfull. subst e. unfold capacity. dq_record.
  set (g := alloc_pick h (2 * (se - sb) + 1)). intros Hrun Hblk' Hmem Hdis Hpos Hg.
  eexists _, h'. split; [exact Hrun|].
  assert (∀ a, g ≤ a < g + 2 * (se - sb) + 1 → is_Some (mem h' !! a)) as Hlive.
  { intros a Ha. rewrite Hmem. unfold grown_cell.
    repeat case_decide; try lia; eauto; apply Hcell; lia. }
  split_and!.
  - unfold valid, capacity, NULL. dq_record. split_and!; try lia.
    + rewrite Hblk', lookup_delete_ne, lookup_insert_eq by lia. f_equal. lia.
    + rewrite Forall_seqZ. intros a Ha. apply Hlive. lia.
  - dq_record. lia.
  - unfold elements. dq_record.
    rewrite (decide_False (P := g + (se - sb) + 1 = NULL)) by (unfold NULL; lia).
    rewrite (decide_True (P := g < g + (se - sb) + 1)) by lia.
    rewrite (decide_False (P := b = NULL)) by (unfold NULL; lia).
    rewrite (decide_False (P := b < b)) by lia.
    replace (g + (se - sb) + 1 - g) with ((se - b) + (b - sb) + 1) by lia.
    rewrite reads_snoc, reads_app by lia. f_equal; [f_equal|].
    + apply reads_shift. intros i Hi. rewrite Hmem. unfold grown_cell.
      repeat case_decide; try lia. f_equal. lia.
    + apply reads_shift. intros i Hi. rewrite Hmem. unfold grown_cell.
      repeat case_decide; try lia. f_equal. lia.
    + unfold read. rewrite Hmem, decide_True by lia. done.
Qed.

Lemma push_fail_spec h q elem :
  begin q = end_ q →
  alloc_pick h (2 * capacity q + 1) = NULL →
  igraph_dqueue_push zero q elem h = Some ((IGRAPH_ENOMEM, q), h).
Proof.
  intros Hfull Hg. unfold igraph_dqueue_push, bind, ret.
  rewrite decide_False by (intros Hne; by apply Hne).
  unfold capacity in Hg. rewrite calloc_fail by done.
  by rewrite decide_True.
Qed.

(** Push on any well-formed state: it never runs into undefined
    behaviour; it appends, or it reports the failed allocation and changes
    nothing. *)
Lemma push_spec h q elem :
  valid h q →
  ∃ r q' h', igraph_dqueue_push zero q elem h = Some ((r, q'), h') ∧
    ((r = IGRAPH_SUCCESS ∧ valid h' q' ∧
      elements zero h' q' = elements zero h q ++ [elem]) ∨
     (r = IGRAPH_ENOMEM ∧ q' = q ∧ h' = h)).
Proof.
  intros Hv. destruct (decide (begin q = end_ q)) as [Hfull|Hnf].
  - destruct (decide (alloc_pick h (2 * capacity q + 1) = NULL)) as [Hg|Hg].
    + eexists _, _, _. split; [by apply push_fail_spec|]. by right.
    + destruct (push_full_elements h q elem Hv Hfull Hg)
        as (q' & h' & Hrun & Hv' & _ & Hel).
      eexists _, _, _. split; [exact Hrun|]. by left.
  - destruct (push_not_full_spec zero h q elem Hv Hnf)
      as (q' & h' & Hrun & Hv' & _ & _ & _ & _ & _ & Hel).
    eexists _, _, _. split; [exact Hrun|]. by left.
Qed.

Lemma init_spec h q size :
  let n := if decide (size ≤ 0) then 1 else size in
  let p := alloc_pick h n in
  if decide (p = NULL) then
    igraph_dqueue_init zero q size h
    = Some ((IGRAPH_ENOMEM, set_stor_begin q 0), h)
  else
    ∃ h', igraph_dqueue_init zero q size h
          = Some ((IGRAPH_SUCCESS, mk_dqueue p NULL p (p + n)), h') ∧
          valid h' (mk_dqueue p NULL p (p + n)).
Proof.
  intros n p. unfold igraph_dqueue_init, bind, ret. fold n.
  case_decide as Hp.
  - rewrite calloc_fail by done. dq_record. by rewrite decide_True.
  - rewrite calloc_ok by done. fold p. dq_record. rewrite decide_False by done.
    eexists. split; [reflexivity|].
    destruct (alloc_pick_fresh h n Hp) as [Hpos _]. fold p in Hpos.
    assert (0 < n) by (unfold n; case_decide; lia).
    unfold valid, capacity. dq_record. split_and!; try (unfold NULL; lia).
    + rewrite lookup_insert_eq. f_equal. lia.
    + rewrite Forall_seqZ. intros a Ha. rewrite lookup_fill_range.
      rewrite decide_True by lia. eauto.
Qed.

Lemma clear_valid h q : valid h q → valid h (igraph_dqueue_clear q).
Proof.
  intros Hv. dq_open q Hv. unfold igraph_dqueue_clear, valid, capacity.
  dq_record. split_and!; try done; try lia.
Qed.

Lemma empty_end q : igraph_dqueue_empty q = false → end_ q ≠ NULL.
Proof. unfold igraph_dqueue_empty. by intros ?%bool_decide_eq_false. Qed.

Lemma reachable_valid h q : reachable zero h q → valid h q.
Proof.
  induction 1 as [h q size h' q' Hinit
                 |h q elem r h' q' _ IH Hpush
                 |h q x h' q' _ IH Hne Hpop
                 |h q x h' q' _ IH Hne Hpop
                 |h q _ IH].
  - pose proof (init_spec h q size) as Hs. cbv zeta in Hs.
    case_decide; [congruence|]. destruct Hs as (h1 & Hrun & Hv). congruence.
  - destruct (push_spec h q elem IH) as (r1 & q1 & h1 & Hrun & Hcase).
    rewrite Hrun in Hpush. simplify_eq.
    destruct Hcase as [(_ & Hv & _)|(_ & -> & ->)]; done.
  - destruct (pop_spec zero h q IH (empty_end q Hne)) as (q1 & Hrun & Hv & _).
    rewrite Hrun in Hpop. by simplify_eq.
  - destruct (pop_back_spec zero h q IH (empty_end q Hne))
      as (x1 & q1 & Hrun & Hv & _).
    rewrite Hrun in Hpop. by simplify_eq.
  - by apply clear_valid.
Qed.

End push_init.

(** ** Runs of pushes and pops *)

Section runs.

Context {BASE : Type} (zero : BASE).
Context {allocator : Allocator (BASE := BASE)}.

Implicit Types (h : heap (BASE := BASE)) (q : igraph_dqueue).

Lemma push_all_spec es : ∀ h q q' h',
  valid h q →
  push_all zero q es h = Some ((IGRAPH_SUCCESS, q'), h') →
  valid h' q' ∧ elements zero h' q' = elements zero h q ++ es.
Proof.
  induction es as [|x es IH]; intros h q q' h' Hv Hrun.
  - simpl in Hrun. unfold ret in Hrun. simplify_eq.
    by rewrite app_nil_r.
  - simpl in Hrun. unfold bind in Hrun.
    destruct (push_spec zero h q x Hv) as (r & q1 & h1 & Hpush & Hcase).
    rewrite Hpush in Hrun. simpl in Hrun.
    destruct Hcase as [(-> & Hv1 & Hel)|(-> & _ & _)].
    + destruct (IH h1 q1 q' h' Hv1 Hrun) as [Hv' Hel']. split; [done|].
      by rewrite Hel', Hel, <- app_assoc.
    + unfold ret in Hrun. simplify_eq.
Qed.

(** A run of pushes never runs into undefined behaviour. *)
Lemma push_all_total es : ∀ h q,
  valid h q → is_Some (push_all zero q es h).
Proof.
  induction es as [|x es IH]; intros h q Hv; simpl.
  - unfold ret. eauto.
  - unfold bind.
    destruct (push_spec zero h q x Hv) as (r & q1 & h1 & -> & Hcase). simpl.
    destruct Hcase as [(-> & Hv1 & _)|(-> & _ & _)]; [by apply IH|].
    unfold ret. eauto.
Qed.

Lemma pop_n_spec (l : list BASE) : ∀ h q rest,
  valid h q →
  elements zero h q = l ++ rest →
  ∃ q', pop_n (length l) q h = Some ((l, q'), h) ∧
        valid h q' ∧ elements zero h q' = rest.
Proof.
  induction l as [|x l IH]; intros h q rest Hv Hel; simpl.
  - unfold ret. eauto.
  - assert (end_ q ≠ NULL) as Hne.
    { intros He. apply (elements_nil zero h q Hv) in He. by rewrite He in Hel. }
    destruct (pop_spec zero h q Hv Hne) as (q1 & Hpop & Hv1 & _ & Hel1).
    rewrite Hel1 in Hel. simpl in Hel. simplify_eq.
    destruct (IH h q1 rest Hv1 ltac:(done)) as (q' & Hrun & Hv' & Hel').
    exists q'. unfold bind. rewrite Hpop. simpl. rewrite Hrun. done.
Qed.

Lemma pop_back_n_spec (l : list BASE) : ∀ h q rest,
  valid h q →
  elements zero h q = rest ++ reverse l →
  ∃ q', pop_back_n (length l) q h = Some ((l, q'), h) ∧
        valid h q' ∧ elements zero h q' = rest.
Proof.
  induction l as [|x l IH]; intros h q rest Hv Hel; simpl.
  - unfold ret. rewrite app_nil_r in Hel. eauto.
  - rewrite reverse_cons, app_assoc in Hel.
    assert (end_ q ≠ NULL) as Hne.
    { intros He. apply (elements_nil zero h q Hv) in He. rewrite He in Hel.
      by destruct (rest ++ reverse l). }
    destruct (pop_back_spec zero h q Hv Hne) as (x1 & q1 & Hpop & Hv1 & _ & Hel1).
    rewrite Hel1 in Hel. apply app_inj_tail in Hel as [Hel ->].
    destruct (IH h q1 rest Hv1 Hel) as (q' & Hrun & Hv' & Hel').
    exists q'. unfold bind. rewrite Hpop. simpl. rewrite Hrun. done.
Qed.

Lemma init_valid h q size q' h' :
  igraph_dqueue_init zero q size h = Some ((IGRAPH_SUCCESS, q'), h') →
  valid h' q' ∧ elements zero h' q' = [] ∧
  capacity q' = (if decide (size ≤ 0) then 1 else size).
Proof.
  intros Hrun. pose proof (init_spec zero h q size) as Hs. cbv zeta in Hs.
  case_decide; [congruence|]. destruct Hs as (h1 & Hrun1 & Hv).
  rewrite Hrun1 in Hrun. simplify_eq. split_and!; [done|done|].
  unfold capacity. dq_record. lia.
Qed.

Lemma empty_elements h q :
  valid h q → elements zero h q = [] → 
  igraph_dqueue_empty q = true ∧ igraph_dqueue_size q = 0.
Proof.
  intros Hv Hel. split.
  - apply bool_decide_eq_true. by apply (elements_nil zero h q Hv).
  - by rewrite (size_elements zero h q Hv), Hel.
Qed.

End runs.

(** ** The queries: back, full, size and indexed access *)

Section queries.

Context {BASE : Type} (zero : BASE).
Context {allocator : Allocator (BASE := BASE)}.

Implicit Types (h : heap (BASE := BASE)) (q : igraph_dqueue).

Lemma back_spec h q :
  valid h q → end_ q ≠ NULL →
  ∃ x l, igraph_dqueue_back q h = Some (x, h) ∧ elements zero h q = l ++ [x].
Proof.
  intros Hv Hne. dq_open q Hv. simpl in *.
  unfold igraph_dqueue_back, elements. dq_record.
  destruct (decide (e = sb)) as [Hesb|Hesb].
  - rewrite (load_cell zero) by (apply Hcell; lia).
    eexists _, _. split; [reflexivity|].
    dq_split. reads_drop.
    rewrite (reads_last zero h b (se - b)) by lia. reads_eq.
  - rewrite (load_cell zero) by (apply Hcell; lia).
    dq_split.
    + eexists _, _. split; [reflexivity|].
      rewrite (reads_last zero h b (e - b)) by lia. reads_eq.
    + eexists _, _. split; [reflexivity|].
      rewrite (reads_last zero h sb (e - sb)) by lia.
      rewrite app_assoc. reads_eq.
Qed.

Lemma full_size h q :
  valid h q →
  (igraph_dqueue_full q = true ↔ igraph_dqueue_size q = capacity q).
Proof.
  intros Hv. dq_open q Hv.
  unfold igraph_dqueue_full, igraph_dqueue_size, capacity. dq_record.
  rewrite bool_decide_eq_true. dq_split.
Qed.

Lemma empty_not_full h q :
  valid h q → igraph_dqueue_empty q = true → igraph_dqueue_full q = false.
Proof.
  intros Hv. dq_open q Hv.
  unfold igraph_dqueue_full, igraph_dqueue_empty. dq_record.
  rewrite bool_decide_eq_true, bool_decide_eq_false. unfold NULL. lia.
Qed.


(** What [igraph_dqueue_e] answers for an index below the size: the
    element, unless the index falls into the second piece of a wrapped
    queue at or past [end - stor_begin]. *)
Lemma e_in_range h q (i : nat) :
  valid h q → Z.of_nat i < igraph_dqueue_size q →
  igraph_dqueue_e zero q (Z.of_nat i) h
  = if decide (begin q >= end_ q ∧ stor_end q - begin q ≤ Z.of_nat i
               ∧ end_ q - stor_begin q ≤ Z.of_nat i)
    then Some (zero, h)
    else (λ x, (x, h)) <$> elements zero h q !! i.
Proof.
  intros Hv. dq_open q Hv.
  unfold igraph_dqueue_e, igraph_dqueue_size, elements, ret. dq_record.
  intros Hidx. dq_split.
  - rewrite lookup_reads by lia. rewrite (load_cell zero) by (apply Hcell; lia).
    done.
  - rewrite lookup_app_l by (rewrite length_reads; lia).
    rewrite lookup_reads by lia. rewrite (load_cell zero) by (apply Hcell; lia).
    done.
  - rewrite lookup_app_r by (rewrite length_reads; lia).
    rewrite length_reads.
    rewrite lookup_reads by lia. rewrite (load_cell zero) by (apply Hcell; lia).
    simpl. do 3 f_equal. lia.
  - done.
Qed.

End queries.

(** ** The claims of the specification, on the code *)

Section claims.

Context {BASE : Type} (zero : BASE).
Context {allocator : Allocator (BASE := BASE)}.

Implicit Types (h : heap (BASE := BASE)) (q : igraph_dqueue).

(** C1. First in, first out: initialise a dqueue with any requested size,
    push the elements [es] one by one with every push returning success,
    then pop [length es] times.  The pops return exactly [es], in push
    order, and leave the queue empty.  Nothing is assumed about how often
    the pushes had to grow the buffer. *)
Theorem C1_pushes_then_pops_are_fifo q0 size h0 q1 h1 es q2 h2 :
  igraph_dqueue_init zero q0 size h0 = Some ((IGRAPH_SUCCESS, q1), h1) →
  push_all zero q1 es h1 = Some ((IGRAPH_SUCCESS, q2), h2) →
  ∃ q3, pop_n (length es) q2 h2 = Some ((es, q3), h2) ∧
        igraph_dqueue_empty q3 = true ∧
        igraph_dqueue_size q3 = 0.
Proof.
  intros Hinit Hpush.
  destruct (init_valid zero h0 q0 size q1 h1 Hinit) as (Hv1 & Hel1 & _).
  destruct (push_all_spec zero es h1 q1 q2 h2 Hv1 Hpush) as [Hv2 Hel2].
  rewrite Hel1 in Hel2. simpl in Hel2.
  destruct (pop_n_spec zero es h2 q2 [] Hv2) as (q3 & Hpop & Hv3 & Hel3).
  { by rewrite app_nil_r. }
  exists q3. split; [done|]. by apply (empty_elements zero h2).
Qed.

(** C7. Last in, first out at the tail: after the same initialisation and
    successful pushes of [es], [length es] calls of pop_back return the
    elements in reverse push order and leave the queue empty. *)
Theorem C7_pushes_then_pop_backs_are_lifo q0 size h0 q1 h1 es q2 h2 :
  igraph_dqueue_init zero q0 size h0 = Some ((IGRAPH_SUCCESS, q1), h1) →
  push_all zero q1 es h1 = Some ((IGRAPH_SUCCESS, q2), h2) →
  ∃ q3, pop_back_n (length es) q2 h2 = Some ((reverse es, q3), h2) ∧
        igraph_dqueue_empty q3 = true.
Proof.
  intros Hinit Hpush.
  destruct (init_valid zero h0 q0 size q1 h1 Hinit) as (Hv1 & Hel1 & _).
  destruct (push_all_spec zero es h1 q1 q2 h2 Hv1 Hpush) as [Hv2 Hel2].
  rewrite Hel1 in Hel2. simpl in Hel2.
  destruct (pop_back_n_spec zero (reverse es) h2 q2 [] Hv2)
    as (q3 & Hpop & Hv3 & Hel3).
  { by rewrite reverse_involutive. }
  rewrite length_reverse in Hpop.
  exists q3. split; [done|]. by apply (empty_elements zero h2).
Qed.

(** C6. In every reachable state the queue reports full exactly when its
    size equals the capacity of the current buffer, and an empty queue is
    never reported full. *)
Theorem C6_full_iff_size_is_capacity h q :
  reachable zero h q →
  (igraph_dqueue_full q = true ↔ igraph_dqueue_size q = capacity q) ∧
  (igraph_dqueue_empty q = true → igraph_dqueue_full q = false).
Proof.
  intros Hv%reachable_valid. split.
  - by apply full_size with h.
  - by apply empty_not_full with h.
Qed.

(** C8. Initialising with a requested size of zero or less succeeds when
    the allocator grants one element, and gives an empty queue of capacity
    exactly one. *)
Theorem C8_init_nonpositive_size h q size :
  size ≤ 0 →
  alloc_pick h 1 ≠ NULL →
  ∃ q' h', igraph_dqueue_init zero q size h = Some ((IGRAPH_SUCCESS, q'), h') ∧
           capacity q' = 1 ∧
           igraph_dqueue_empty q' = true ∧
           igraph_dqueue_size q' = 0 ∧
           valid h' q'.
Proof.
  intros Hsize Hp. pose proof (init_spec zero h q size) as Hs. cbv zeta in Hs.
  rewrite (decide_True (P := size ≤ 0)) in Hs by done.
  rewrite decide_False in Hs by done. destruct Hs as (h' & Hrun & Hv).
  eexists _, h'. split; [exact Hrun|]. split_and!; try done.
  unfold capacity. dq_record. lia.
Qed.

(** C9. On a well-formed queue that is not full, push returns success
    whatever the allocator would answer, and keeps the buffer: the same
    storage bounds, the same live blocks and the same allocated addresses. *)
Theorem C9_push_not_full_keeps_buffer h q elem :
  valid h q →
  igraph_dqueue_full q = false →
  ∃ q' h', igraph_dqueue_push zero q elem h = Some ((IGRAPH_SUCCESS, q'), h') ∧
           capacity q' = capacity q ∧
           stor_begin q' = stor_begin q ∧
           stor_end q' = stor_end q ∧
           blocks h' = blocks h ∧
           dom (mem h') = dom (mem h).
Proof.
  intros Hv Hnf. apply bool_decide_eq_false in Hnf.
  destruct (push_not_full_spec zero h q elem Hv Hnf)
    as (q' & h' & Hrun & _ & Hsb & Hse & _ & Hblk & Hdom & _).
  exists q', h'. split_and!; try done. unfold capacity. by rewrite Hsb, Hse.
Qed.

(** C10. After a successful push of [elem] on a well-formed queue (empty,
    partly filled or full) the queue is not empty, back returns [elem], and
    the size has grown by exactly one. *)
Theorem C10_push_then_back_and_size h q elem q' h' :
  valid h q →
  igraph_dqueue_push zero q elem h = Some ((IGRAPH_SUCCESS, q'), h') →
  igraph_dqueue_empty q' = false ∧
  igraph_dqueue_back q' h' = Some (elem, h') ∧
  igraph_dqueue_size q' = igraph_dqueue_size q + 1.
Proof.
  intros Hv Hrun.
  destruct (push_spec zero h q elem Hv) as (r & q1 & h1 & Hrun1 & Hcase).
  rewrite Hrun1 in Hrun. simplify_eq.
  destruct Hcase as [(_ & Hv' & Hel)|(? & _)]; [|done].
  assert (end_ q' ≠ NULL) as Hne.
  { intros He. apply (elements_nil zero h' q' Hv') in He. rewrite He in Hel.
    by destruct (elements zero h q). }
  split_and!.
  - by apply bool_decide_eq_false.
  - destruct (back_spec zero h' q' Hv' Hne) as (x & l & Hback & Hl).
    rewrite Hl in Hel. apply app_inj_tail in Hel as [_ ->]. done.
  - rewrite (size_elements zero h' q' Hv'), (size_elements zero h q Hv), Hel.
    rewrite length_app. simpl. lia.
Qed.

(** C4. When the allocation of the growth step fails, push returns
    IGRAPH_ENOMEM and hands back the queue and the heap it was given: no
    pointer of the struct has changed, no block was freed, no cell was
    written. *)
Theorem C4_push_failed_growth_changes_nothing h q elem :
  igraph_dqueue_full q = true →
  alloc_pick h (2 * capacity q + 1) = NULL →
  igraph_dqueue_push zero q elem h = Some ((IGRAPH_ENOMEM, q), h).
Proof.
  intros Hfull%bool_decide_eq_true Hp. by apply push_fail_spec.
Qed.

(** C3. Push on a full queue, when the allocation succeeds, is the growth
    step of the specification followed by the ordinary push.  The growth
    step [grow] allocates a block of exactly [2 * capacity + 1] elements;
    the new buffer starts with the segment from [begin] to the old
    [stor_end] followed by the segment from the old [stor_begin] to [end],
    which together are the elements in logical order; the old block is
    released; [begin] is the start of the new buffer and [end] lies the
    old capacity past it.  The grown queue is not full, and pushing on it
    gives the very state and heap that the push on the full queue gives:
    a buffer of [2 * capacity + 1] elements that holds the old elements
    followed by the new one, with the old block gone. *)
Theorem C3_push_full_is_grow_then_push h q elem :
  valid h q →
  igraph_dqueue_full q = true →
  alloc_pick h (2 * capacity q + 1) ≠ NULL →
  ∃ q1 h1 q' h',
    grow zero q h = Some (Some q1, h1) ∧
    capacity q1 = 2 * capacity q + 1 ∧
    blocks h1 !! stor_begin q1 = Some (2 * capacity q + 1) ∧
    reads zero h1 (stor_begin q1) (stor_end q - begin q)
    = reads zero h (begin q) (stor_end q - begin q) ∧
    reads zero h1 (stor_begin q1 + (stor_end q - begin q)) (end_ q - stor_begin q)
    = reads zero h (stor_begin q) (end_ q - stor_begin q) ∧
    reads zero h1 (stor_begin q1) (capacity q) = elements zero h q ∧
    blocks h1 !! stor_begin q = None ∧
    (∀ a, stor_begin q ≤ a < stor_end q → mem h1 !! a = None) ∧
    begin q1 = stor_begin q1 ∧
    end_ q1 = stor_begin q1 + capacity q ∧
    igraph_dqueue_full q1 = false ∧
    igraph_dqueue_push zero q1 elem h1 = Some ((IGRAPH_SUCCESS, q'), h') ∧
    igraph_dqueue_push zero q elem h = Some ((IGRAPH_SUCCESS, q'), h') ∧
    capacity q' = 2 * capacity q + 1 ∧
    blocks h' !! stor_begin q' = Some (2 * capacity q + 1) ∧
    blocks h' !! stor_begin q = None ∧
    begin q' = stor_begin q' ∧
    end_ q' = stor_begin q' + capacity q + 1 ∧
    elements zero h' q' = elements zero h q ++ [elem].
Proof.
  intros Hv Hfull%bool_decide_eq_true Hg.
  destruct (grow_spec zero h q Hv Hfull Hg) as (h1 & Hgrow & Hblk1 & Hdis & Hm1).
  destruct (push_full_spec zero h q elem Hv Hfull Hg) as (h' & Hrun & Hblk' & Hm').
  destruct (push_full_elements zero h q elem Hv Hfull Hg)
    as (q2 & h2 & Hrun2 & _ & _ & Hel).
  rewrite Hrun in Hrun2. symmetry in Hrun2. simplify_eq.
  destruct (alloc_pick_fresh h _ Hg) as [Hpos _].
  revert Hgrow Hblk1 Hdis Hm1 Hrun Hblk' Hm' Hel Hpos Hg.
  dq_open q Hv. simpl in Hfull. subst e. unfold capacity. dq_record.
  set (g := alloc_pick h (2 * (se - sb) + 1)).
  intros Hgrow Hblk1 Hdis Hm1 Hrun Hblk' Hm' Hel Hpos Hg.
  assert (∀ i, 0 ≤ i < se - b → mem h1 !! (g + i) = mem h !! (b + i)) as Hseg1.
  { intros i Hi. rewrite Hm1. unfold grown_cell.
    repeat case_decide; try lia. f_equal. lia. }
  assert (∀ i, 0 ≤ i < b - sb →
               mem h1 !! (g + (se - b) + i) = mem h !! (sb + i)) as Hseg2.
  { intros i Hi. rewrite Hm1. unfold grown_cell.
    repeat case_decide; try lia. f_equal. lia. }
  eexists _, h1, _, h'. split; [exact Hgrow|]. dq_record.
  split_and!; try lia.
  - rewrite Hblk1, lookup_delete_ne, lookup_insert_eq by lia. done.
  - by apply reads_shift.
  - by apply reads_shift.
  - unfold elements. dq_record.
    rewrite (decide_False (P := b = NULL)) by (unfold NULL; lia).
    rewrite (decide_False (P := b < b)) by lia.
    replace (se - sb) with ((se - b) + (b - sb)) by lia.
    rewrite reads_app by lia. f_equal; by apply reads_shift.
  - by rewrite Hblk1, lookup_delete_eq.
  - intros a Ha. rewrite Hm1. unfold grown_cell. by rewrite decide_True.
  - apply bool_decide_eq_false. dq_record. lia.
  - unfold igraph_dqueue_push, bind, ret. dq_record.
    rewrite (decide_True (P := g + 0 ≠ g + (se - sb))) by lia.
    rewrite (decide_False (P := g + (se - sb) = NULL)) by (unfold NULL; lia).
    dq_record.
    rewrite store_cell
      by (rewrite Hm1; unfold grown_cell; repeat case_decide; try lia; eauto).
    dq_record.
    rewrite (decide_False (P := g + (se - sb) + 1 = g + (2 * (se - sb) + 1)))
      by lia.
    dq_record. do 2 f_equal.
    apply heap_eq; dq_record; [congruence|].
    intros a. rewrite Hm', lookup_insert, Hm1.
    repeat case_decide; try lia; done.
  - rewrite Hrun. do 3 f_equal. unfold set_end. dq_record. f_equal; lia.
  - unfold set_end. dq_record. lia.
  - unfold set_end. dq_record.
    rewrite Hblk', lookup_delete_ne, lookup_insert_eq by lia. done.
  - by rewrite Hblk', lookup_delete_eq.
  - unfold set_end. dq_record. lia.
  - unfold set_end. dq_record. lia.
  - rewrite <- Hel. f_equal. unfold set_end. dq_record. f_equal; lia.
Qed.

End claims.

(** ** The claims at concrete queues of integers *)

Module Examples.

(** Two allocators: one with room for a hundred elements, one with room
    for four. *)
Definition roomy : Allocator (BASE := Z) := bump_allocator 100.
Definition tight : Allocator (BASE := Z) := bump_allocator 4.

Definition mk_heap (cells blks : list (Z * Z)) : heap (BASE := Z) :=
  Heap (list_to_map cells) (list_to_map blks).

Definition no_heap : heap (BASE := Z) := mk_heap [] [].

(** The struct before init: whatever the caller's memory holds. *)
Definition raw : igraph_dqueue := mk_dqueue 0 0 0 0.

(** init(2); push(10): one element, one free slot. *)
Definition half_q : igraph_dqueue := mk_dqueue 1 2 1 3.
Definition half_h : heap := mk_heap [(1, 10); (2, 0)] [(1, 2)].

(** init(2); push(10); push(20): full, [end] has wrapped onto [begin]. *)
Definition full_q : igraph_dqueue := mk_dqueue 1 1 1 3.
Definition full_h : heap := mk_heap [(1, 10); (2, 20)] [(1, 2)].

(** init(3); push(1); push(2); push(3); pop(); push(4): full, and the
    elements 2, 3, 4 lie in two pieces. *)
Definition split_q : igraph_dqueue := mk_dqueue 2 2 1 4.
Definition split_h : heap := mk_heap [(1, 4); (2, 2); (3, 3)] [(1, 3)].

(** init(3); push(1); push(2); push(3); pop(); pop(); push(4): the
    elements 3, 4 lie in two pieces, one slot is free. *)
Definition wrapped_q : igraph_dqueue := mk_dqueue 3 2 1 4.
Definition wrapped_h : heap := mk_heap [(1, 4); (2, 2); (3, 3)] [(1, 3)].

(** init(2); push(5); push(6); pop(); pop(): empty again. *)
Definition drained_q : igraph_dqueue := mk_dqueue 1 0 1 3.
Definition drained_h : heap := mk_heap [(1, 5); (2, 6)] [(1, 2)].

Ltac run := vm_compute; reflexivity.

Lemma full_reachable : reachable (allocator := roomy) 0 full_h full_q.
Proof.
  apply (reach_push 0 half_h half_q 20 IGRAPH_SUCCESS); [|run].
  apply (reach_push 0 (mk_heap [(1, 0); (2, 0)] [(1, 2)]) (mk_dqueue 1 0 1 3)
           10 IGRAPH_SUCCESS); [|run].
  apply (reach_init 0 no_heap raw 2). run.
Qed.

Lemma drained_reachable : reachable (allocator := roomy) 0 drained_h drained_q.
Proof.
  apply (reach_pop 0 drained_h (mk_dqueue 2 1 1 3) 6); [|run|run].
  apply (reach_pop 0 drained_h (mk_dqueue 1 1 1 3) 5); [|run|run].
  apply (reach_push 0 (mk_heap [(1, 5); (2, 0)] [(1, 2)]) (mk_dqueue 1 2 1 3)
           6 IGRAPH_SUCCESS); [|run].
  apply (reach_push 0 (mk_heap [(1, 0); (2, 0)] [(1, 2)]) (mk_dqueue 1 0 1 3)
           5 IGRAPH_SUCCESS); [|run].
  apply (reach_init 0 no_heap raw 2). run.
Qed.

Lemma wrapped_reachable : reachable (allocator := roomy) 0 wrapped_h wrapped_q.
Proof.
  pose (h3 := mk_heap [(1, 1); (2, 2); (3, 3)] [(1, 3)]).
  apply (reach_push 0 h3 (mk_dqueue 3 1 1 4) 4 IGRAPH_SUCCESS); [|run].
  apply (reach_pop 0 h3 (mk_dqueue 2 1 1 4) 2); [|run|run].
  apply (reach_pop 0 h3 (mk_dqueue 1 1 1 4) 1); [|run|run].
  apply (reach_push 0 (mk_heap [(1, 1); (2, 2); (3, 0)] [(1, 3)])
           (mk_dqueue 1 3 1 4) 3 IGRAPH_SUCCESS); [|run].
  apply (reach_push 0 (mk_heap [(1, 1); (2, 0); (3, 0)] [(1, 3)])
           (mk_dqueue 1 2 1 4) 2 IGRAPH_SUCCESS); [|run].
  apply (reach_push 0 (mk_heap [(1, 0); (2, 0); (3, 0)] [(1, 3)])
           (mk_dqueue 1 0 1 4) 1 IGRAPH_SUCCESS); [|run].
  apply (reach_init 0 no_heap raw 3). run.
Qed.

(** C2, at the failing input.  In the reachable state [wrapped_q] the queue
    holds 3 and 4, its size is 2 and two pops return 3 and then 4; the
    index 1 is therefore in range and names the element 4.  The source
    compares [stor_begin + idx < end] before it rebases [idx], finds
    [1 < 1] false, and returns 0. *)
Theorem C2_e_misses_element_of_second_piece :
  reachable (allocator := roomy) 0 wrapped_h wrapped_q ∧
  igraph_dqueue_size wrapped_q = 2 ∧
  elements 0 wrapped_h wrapped_q = [3; 4] ∧
  pop_n 2 wrapped_q wrapped_h = Some (([3; 4], mk_dqueue 2 0 1 4), wrapped_h) ∧
  igraph_dqueue_e 0 wrapped_q 0 wrapped_h = Some (3, wrapped_h) ∧
  igraph_dqueue_e 0 wrapped_q 1 wrapped_h = Some (0, wrapped_h).
Proof. split; [exact wrapped_reachable|]. split_and!; run. Qed.

(** C5, at the failing input.  In the reachable state [drained_q] the
    queue is empty, so every index is out of range; the source takes
    [begin >= end] to hold of the NULL [end] and returns the stale
    element 5 of the slot at [begin] (and 6 for index 1), not 0. *)
Theorem C5_e_returns_stale_slot_when_empty :
  reachable (allocator := roomy) 0 drained_h drained_q ∧
  igraph_dqueue_empty drained_q = true ∧
  igraph_dqueue_size drained_q = 0 ∧
  igraph_dqueue_e 0 drained_q 0 drained_h = Some (5, drained_h) ∧
  igraph_dqueue_e 0 drained_q 1 drained_h = Some (6, drained_h) ∧
  igraph_dqueue_e 0 drained_q 2 drained_h = Some (0, drained_h).
Proof. split; [exact drained_reachable|]. split_and!; run. Qed.

(** init(1); push 10, 20, 30, 40: the buffer has grown twice. *)
Definition long_q : igraph_dqueue := mk_dqueue 5 9 5 12.
Definition long_h : heap :=
  mk_heap [(5, 10); (6, 20); (7, 30); (8, 40); (9, 0); (10, 0); (11, 0)]
          [(5, 7)].

(** C1 run: init(1), then 10, 20, 30, 40 are pushed (the buffer grows from
    1 to 3 to 7 elements) and popped again. *)
Lemma C1_witness :
  igraph_dqueue_init (allocator := roomy) 0 raw 1 no_heap
  = Some ((IGRAPH_SUCCESS, mk_dqueue 1 0 1 2), mk_heap [(1, 0)] [(1, 1)]) ∧
  push_all (allocator := roomy) 0 (mk_dqueue 1 0 1 2) [10; 20; 30; 40]
           (mk_heap [(1, 0)] [(1, 1)])
  = Some ((IGRAPH_SUCCESS, long_q), long_h) ∧
  ∃ q3, pop_n 4 long_q long_h = Some (([10; 20; 30; 40], q3), long_h) ∧
        igraph_dqueue_empty q3 = true ∧
        igraph_dqueue_size q3 = 0.
Proof.
  assert (igraph_dqueue_init (allocator := roomy) 0 raw 1 no_heap
          = Some ((IGRAPH_SUCCESS, mk_dqueue 1 0 1 2),
                  mk_heap [(1, 0)] [(1, 1)])) as Hinit by run.
  assert (push_all (allocator := roomy) 0 (mk_dqueue 1 0 1 2) [10; 20; 30; 40]
                   (mk_heap [(1, 0)] [(1, 1)])
          = Some ((IGRAPH_SUCCESS, long_q), long_h)) as Hpush by run.
  split; [exact Hinit|]. split; [exact Hpush|].
  exact (C1_pushes_then_pops_are_fifo 0 raw 1 no_heap _ _ [10; 20; 30; 40]
           _ _ Hinit Hpush).
Defined.

(** C7 run: init(2), then 1 and 2 are pushed, which wraps [end] onto
    [stor_begin], so that the first pop_back steps back to [stor_end - 1]. *)
Lemma C7_witness :
  igraph_dqueue_init (allocator := roomy) 0 raw 2 no_heap
  = Some ((IGRAPH_SUCCESS, mk_dqueue 1 0 1 3),
          mk_heap [(1, 0); (2, 0)] [(1, 2)]) ∧
  push_all (allocator := roomy) 0 (mk_dqueue 1 0 1 3) [1; 2]
           (mk_heap [(1, 0); (2, 0)] [(1, 2)])
  = Some ((IGRAPH_SUCCESS, mk_dqueue 1 1 1 3),
          mk_heap [(1, 1); (2, 2)] [(1, 2)]) ∧
  ∃ q3, pop_back_n 2 (mk_dqueue 1 1 1 3) (mk_heap [(1, 1); (2, 2)] [(1, 2)])
        = Some (([2; 1], q3), mk_heap [(1, 1); (2, 2)] [(1, 2)]) ∧
        igraph_dqueue_empty q3 = true.
Proof.
  assert (igraph_dqueue_init (allocator := roomy) 0 raw 2 no_heap
          = Some ((IGRAPH_SUCCESS, mk_dqueue 1 0 1 3),
                  mk_heap [(1, 0); (2, 0)] [(1, 2)])) as Hinit by run.
  assert (push_all (allocator := roomy) 0 (mk_dqueue 1 0 1 3) [1; 2]
                   (mk_heap [(1, 0); (2, 0)] [(1, 2)])
          = Some ((IGRAPH_SUCCESS, mk_dqueue 1 1 1 3),
                  mk_heap [(1, 1); (2, 2)] [(1, 2)])) as Hpush by run.
  split; [exact Hinit|]. split; [exact Hpush|].
  exact (C7_pushes_then_pop_backs_are_lifo 0 raw 2 no_heap _ _ [1; 2]
           _ _ Hinit Hpush).
Defined.

(** C6 run: the full queue [full_q]. *)
Lemma C6_witness :
  reachable (allocator := roomy) 0 full_h full_q ∧
  (igraph_dqueue_full full_q = true
   ↔ igraph_dqueue_size full_q = capacity full_q) ∧
  (igraph_dqueue_empty full_q = true → igraph_dqueue_full full_q = false).
Proof.
  split; [exact full_reachable|].
  exact (C6_full_iff_size_is_capacity 0 full_h full_q full_reachable).
Defined.

(** C8 run: init(0) on the empty heap. *)
Lemma C8_witness :
  0 ≤ 0 ∧
  alloc_pick (Allocator := roomy) no_heap 1 ≠ NULL ∧
  ∃ q' h', igraph_dqueue_init (allocator := roomy) 0 raw 0 no_heap
           = Some ((IGRAPH_SUCCESS, q'), h') ∧
           capacity q' = 1 ∧
           igraph_dqueue_empty q' = true ∧
           igraph_dqueue_size q' = 0 ∧
           valid h' q'.
Proof.
  assert (alloc_pick (Allocator := roomy) no_heap 1 ≠ NULL) as Hp
    by (intros H; vm_compute in H; discriminate H).
  split; [lia|]. split; [exact Hp|].
  exact (C8_init_nonpositive_size 0 no_heap raw 0 ltac:(lia) Hp).
Defined.

(** C9 run: push(20) on [half_q], with the allocator that has no room
    left for a bigger buffer. *)
Lemma C9_witness :
  valid half_h half_q ∧
  igraph_dqueue_full half_q = false ∧
  ∃ q' h', igraph_dqueue_push (allocator := tight) 0 half_q 20 half_h
           = Some ((IGRAPH_SUCCESS, q'), h') ∧
           capacity q' = capacity half_q ∧
           stor_begin q' = stor_begin half_q ∧
           stor_end q' = stor_end half_q ∧
           blocks h' = blocks half_h ∧
           dom (mem h') = dom (mem half_h).
Proof.
  assert (valid half_h half_q) as Hv by compute_done.
  assert (igraph_dqueue_full half_q = false) as Hnf by run.
  split; [exact Hv|]. split; [exact Hnf|].
  exact (C9_push_not_full_keeps_buffer 0 half_h half_q 20 Hv Hnf).
Defined.

(** push(30) on the full queue [full_q]: the buffer has grown. *)
Definition grown_q : igraph_dqueue := mk_dqueue 3 6 3 8.
Definition grown_h : heap :=
  mk_heap [(3, 10); (4, 20); (5, 30); (6, 0); (7, 0)] [(3, 5)].

(** C10 run: push(30) on the full queue [full_q], through the growth
    branch. *)
Lemma C10_witness :
  valid full_h full_q ∧
  igraph_dqueue_push (allocator := roomy) 0 full_q 30 full_h
  = Some ((IGRAPH_SUCCESS, grown_q), grown_h) ∧
  igraph_dqueue_empty grown_q = false ∧
  igraph_dqueue_back grown_q grown_h = Some (30, grown_h) ∧
  igraph_dqueue_size grown_q = igraph_dqueue_size full_q + 1.
Proof.
  assert (valid full_h full_q) as Hv by compute_done.
  assert (igraph_dqueue_push (allocator := roomy) 0 full_q 30 full_h
          = Some ((IGRAPH_SUCCESS, grown_q), grown_h)) as Hrun by run.
  split; [exact Hv|]. split; [exact Hrun|].
  exact (C10_push_then_back_and_size 0 full_h full_q 30 grown_q grown_h Hv Hrun).
Defined.

(** C4 run: push(30) on the full queue [full_q] when the five elements of
    the bigger buffer do not fit the allocator's four addresses. *)
Lemma C4_witness :
  igraph_dqueue_full full_q = true ∧
  alloc_pick (Allocator := tight) full_h (2 * capacity full_q + 1) = NULL ∧
  igraph_dqueue_push (allocator := tight) 0 full_q 30 full_h
  = Some ((IGRAPH_ENOMEM, full_q), full_h).
Proof.
  assert (igraph_dqueue_full full_q = true) as Hfull by run.
  assert (alloc_pick (Allocator := tight) full_h (2 * capacity full_q + 1)
          = NULL) as Hp by run.
  split; [exact Hfull|]. split; [exact Hp|].
  exact (C4_push_failed_growth_changes_nothing 0 full_h full_q 30 Hfull Hp).
Defined.

(** C3 run: push(5) on the full queue [split_q], whose elements lie in two
    pieces. *)
Lemma C3_witness :
  valid split_h split_q ∧
  igraph_dqueue_full split_q = true ∧
  alloc_pick (Allocator := roomy) split_h (2 * capacity split_q + 1) ≠ NULL ∧
  ∃ q1 h1 q' h',
    grow (allocator := roomy) 0 split_q split_h = Some (Some q1, h1) ∧
    capacity q1 = 2 * capacity split_q + 1 ∧
    blocks h1 !! stor_begin q1 = Some (2 * capacity split_q + 1) ∧
    reads 0 h1 (stor_begin q1) (stor_end split_q - begin split_q)
    = reads 0 split_h (begin split_q) (stor_end split_q - begin split_q) ∧
    reads 0 h1 (stor_begin q1 + (stor_end split_q - begin split_q))
          (end_ split_q - stor_begin split_q)
    = reads 0 split_h (stor_begin split_q) (end_ split_q - stor_begin split_q) ∧
    reads 0 h1 (stor_begin q1) (capacity split_q) = elements 0 split_h split_q ∧
    blocks h1 !! stor_begin split_q = None ∧
    (∀ a, stor_begin split_q ≤ a < stor_end split_q → mem h1 !! a = None) ∧
    begin q1 = stor_begin q1 ∧
    end_ q1 = stor_begin q1 + capacity split_q ∧
    igraph_dqueue_full q1 = false ∧
    igraph_dqueue_push (allocator := roomy) 0 q1 5 h1
    = Some ((IGRAPH_SUCCESS, q'), h') ∧
    igraph_dqueue_push (allocator := roomy) 0 split_q 5 split_h
    = Some ((IGRAPH_SUCCESS, q'), h') ∧
    capacity q' = 2 * capacity split_q + 1 ∧
    blocks h' !! stor_begin q' = Some (2 * capacity split_q + 1) ∧
    blocks h' !! stor_begin split_q = None ∧
    begin q' = stor_begin q' ∧
    end_ q' = stor_begin q' + capacity split_q + 1 ∧
    elements 0 h' q' = elements 0 split_h split_q ++ [5].
Proof.
  assert (valid split_h split_q) as Hv by compute_done.
  assert (igraph_dqueue_full split_q = true) as Hfull by run.
  assert (alloc_pick (Allocator := roomy) split_h (2 * capacity split_q + 1)
          ≠ NULL) as Hp
    by (intros H; vm_compute in H; discriminate H).
  split; [exact Hv|]. split; [exact Hfull|]. split; [exact Hp|].
  exact (C3_push_full_is_grow_then_push 0 split_h split_q 5 Hv Hfull Hp).
Defined.

End Examples.

(** * Further properties of the code

    The rest of the file covers what the statements above leave out: the
    queries empty, size and head, clear, destroy, the failure of init,
    printing, clients that interleave the operations, and which memory the
    queue touches. *)

(** ** Lemmas *)

Section more_facts.

Context {BASE : Type} (zero : BASE).
Context {allocator : Allocator (BASE := BASE)}.

Implicit Types (h : heap (BASE := BASE)) (q : igraph_dqueue).

Lemma outside_lookup h q a :
  outside h q !! a
  = if decide (stor_begin q ≤ a < stor_end q) then None else mem h !! a.
Proof.
  unfold outside, capacity. rewrite lookup_drop_range.
  repeat case_decide; try done; lia.
Qed.

Lemma pop_storage h q x q' h' :
  igraph_dqueue_pop q h = Some ((x, q'), h') →
  stor_begin q' = stor_begin q ∧ stor_end q' = stor_end q ∧ h' = h.
Proof.
  unfold igraph_dqueue_pop, bind, ret, load.
  destruct q as [b e sb se]. unfold set_begin, set_end. dq_record.
  destruct (mem h !! b); [|done]. intros [= <- <- <-].
  repeat (case_decide; dq_record); done.
Qed.

Lemma pop_back_storage h q x q' h' :
  igraph_dqueue_pop_back q h = Some ((x, q'), h') →
  stor_begin q' = stor_begin q ∧ stor_end q' = stor_end q ∧ h' = h.
Proof.
  unfold igraph_dqueue_pop_back, bind, ret, load.
  destruct q as [b e sb se]. unfold set_begin, set_end. dq_record.
  case_decide; dq_record.
  - destruct (mem h !! (e - 1)); [|done]. dq_record. intros [= <- <- <-].
    case_decide; done.
  - destruct (mem h !! (se - 1)); [|done]. dq_record. intros [= <- <- <-].
    case_decide; done.
Qed.

Lemma push_not_full_heap h q elem :
  valid h q → begin q ≠ end_ q →
  ∃ q' slot,
    stor_begin q ≤ slot < stor_end q ∧
    stor_begin q' = stor_begin q ∧ stor_end q' = stor_end q ∧
    igraph_dqueue_push zero q elem h
    = Some ((IGRAPH_SUCCESS, q'), Heap (<[slot:=elem]> (mem h)) (blocks h)).
Proof.
  intros Hv Hne. dq_open q Hv. simpl in *.
  unfold igraph_dqueue_push, bind, ret. simpl.
  rewrite decide_True by done.
  destruct (decide (e = NULL)) as [He0|He0]; unfold NULL in He0; simpl.
  - rewrite store_cell by (apply Hcell; lia). simpl.
    eexists _, b. split_and!; [lia|lia| | |reflexivity];
      case_decide; done.
  - rewrite store_cell by (apply Hcell; lia). simpl.
    eexists _, e. split_and!; [lia|lia| | |reflexivity];
      case_decide; done.
Qed.

Lemma push_frame h q elem r q' h' :
  valid h q →
  igraph_dqueue_push zero q elem h = Some ((r, q'), h') →
  outside h' q' = outside h q.
Proof.
  intros Hv Hrun. destruct (decide (begin q = end_ q)) as [Hfull|Hnf].
  - destruct (decide (alloc_pick h (2 * capacity q + 1) = NULL)) as [Hg|Hg].
    + rewrite (push_fail_spec zero h q elem Hfull Hg) in Hrun. by simplify_eq.
    + destruct (push_full_spec zero h q elem Hv Hfull Hg) as (h1 & Hrun1 & _ & Hm).
      destruct (grow_spec zero h q Hv Hfull Hg) as (_ & _ & _ & Hdis & _).
      destruct (alloc_pick_fresh h _ Hg) as [Hpos Hfresh].
      rewrite Hrun1 in Hrun. simplify_eq.
      apply map_eq. intros a. rewrite !outside_lookup, Hm. dq_record.
      unfold grown_cell. revert Hm Hdis Hpos Hfresh Hg.
      dq_open q Hv. simpl in Hfull. subst e. unfold capacity. dq_record.
      set (g := alloc_pick h (2 * (se - sb) + 1)). intros Hm Hdis Hpos Hfresh Hg.
      repeat case_decide; try lia; try done.
      all: symmetry; replace a with (g + (a - g)) by lia; apply Hfresh; lia.
  - destruct (push_not_full_heap h q elem Hv Hnf)
      as (q1 & slot & Hslot & Hsb & Hse & Hrun1).
    rewrite Hrun1 in Hrun. simplify_eq.
    apply map_eq. intros a. rewrite !outside_lookup, Hsb, Hse. dq_record.
    case_decide; [done|]. rewrite lookup_insert_ne by lia. done.
Qed.

Lemma run_ops_frame ops : ∀ h q r out q' h',
  valid h q →
  run_ops zero q ops h = Some ((r, out, q'), h') →
  valid h' q' ∧ outside h' q' = outside h q.
Proof.
  induction ops as [|[elem| | |] ops IH]; intros h q r out q' h' Hv Hrun;
    simpl in Hrun.
  - unfold ret in Hrun. by simplify_eq.
  - unfold bind in Hrun.
    destruct (push_spec zero h q elem Hv) as (r1 & q1 & h1 & Hpush & Hcase).
    pose proof (push_frame h q elem r1 q1 h1 Hv Hpush) as Hfr.
    rewrite Hpush in Hrun. simpl in Hrun.
    destruct Hcase as [(-> & Hv1 & _)|(-> & -> & ->)].
    + destruct (IH _ _ _ _ _ _ Hv1 Hrun) as [Hv' Hfr']. split; [done|].
      by rewrite Hfr'.
    + unfold ret in Hrun. by simplify_eq.
  - destruct (igraph_dqueue_empty q) eqn:Hemp; [by eapply IH|].
    unfold bind in Hrun.
    destruct (pop_spec zero h q Hv (empty_end q Hemp)) as (q1 & Hpop & Hv1 & _).
    destruct (pop_storage _ _ _ _ _ Hpop) as (Hsb & Hse & _).
    rewrite Hpop in Hrun. simpl in Hrun.
    destruct (run_ops zero q1 ops h) as [[[[r2 out2] q2] h2]|] eqn:Hrest;
      [|done].
    unfold ret in Hrun. simpl in Hrun. simplify_eq.
    destruct (IH _ _ _ _ _ _ Hv1 Hrest) as [Hv' Hfr']. split; [done|].
    rewrite Hfr'. unfold outside, capacity. by rewrite Hsb, Hse.
  - destruct (igraph_dqueue_empty q) eqn:Hemp; [by eapply IH|].
    unfold bind in Hrun.
    destruct (pop_back_spec zero h q Hv (empty_end q Hemp))
      as (x1 & q1 & Hpop & Hv1 & _).
    destruct (pop_back_storage _ _ _ _ _ Hpop) as (Hsb & Hse & _).
    rewrite Hpop in Hrun. simpl in Hrun.
    destruct (run_ops zero q1 ops h) as [[[[r2 out2] q2] h2]|] eqn:Hrest;
      [|done].
    unfold ret in Hrun. simpl in Hrun. simplify_eq.
    destruct (IH _ _ _ _ _ _ Hv1 Hrest) as [Hv' Hfr']. split; [done|].
    rewrite Hfr'. unfold outside, capacity. by rewrite Hsb, Hse.
  - destruct (IH _ _ _ _ _ _ (clear_valid h q Hv) Hrun) as [Hv' Hfr'].
    split; [done|]. rewrite Hfr'. done.
Qed.

Lemma run_ops_safe ops : ∀ h q,
  valid h q → is_Some (run_ops zero q ops h).
Proof.
  induction ops as [|[elem| | |] ops IH]; intros h q Hv; simpl.
  - unfold ret. eauto.
  - unfold bind.
    destruct (push_spec zero h q elem Hv) as (r1 & q1 & h1 & -> & Hcase).
    simpl. destruct Hcase as [(-> & Hv1 & _)|(-> & -> & ->)]; [by apply IH|].
    unfold ret. eauto.
  - destruct (igraph_dqueue_empty q) eqn:Hemp; [by apply IH|].
    unfold bind.
    destruct (pop_spec zero h q Hv (empty_end q Hemp)) as (q1 & -> & Hv1 & _).
    simpl. destruct (IH h q1 Hv1) as [[[[r2 out2] q2] h2] ->]. unfold ret. eauto.
  - destruct (igraph_dqueue_empty q) eqn:Hemp; [by apply IH|].
    unfold bind.
    destruct (pop_back_spec zero h q Hv (empty_end q Hemp))
      as (x1 & q1 & -> & Hv1 & _).
    simpl. destruct (IH h q1 Hv1) as [[[[r2 out2] q2] h2] ->]. unfold ret. eauto.
  - apply IH. by apply clear_valid.
Qed.

Lemma run_ops_sim ops : ∀ h q out q' h',
  valid h q →
  run_ops zero q ops h = Some ((IGRAPH_SUCCESS, out, q'), h') →
  out = (list_ops (elements zero h q) ops).1 ∧
  elements zero h' q' = (list_ops (elements zero h q) ops).2.
Proof.
  induction ops as [|[elem| | |] ops IH]; intros h q out q' h' Hv Hrun;
    simpl in Hrun; simpl.
  - unfold ret in Hrun. by simplify_eq.
  - unfold bind in Hrun.
    destruct (push_spec zero h q elem Hv) as (r1 & q1 & h1 & Hpush & Hcase).
    rewrite Hpush in Hrun. simpl in Hrun.
    destruct Hcase as [(-> & Hv1 & Hel)|(-> & -> & ->)].
    + rewrite <- Hel. by apply IH.
    + unfold ret in Hrun. simplify_eq.
  - destruct (igraph_dqueue_empty q) eqn:Hemp.
    + apply bool_decide_eq_true in Hemp.
      pose proof (proj2 (elements_nil zero h q Hv) Hemp) as Hnil.
      rewrite Hnil. rewrite <- Hnil. by apply IH.
    + unfold bind in Hrun.
      destruct (pop_spec zero h q Hv (empty_end q Hemp))
        as (q1 & Hpop & Hv1 & _ & Hel).
      rewrite Hpop in Hrun. simpl in Hrun.
      destruct (run_ops zero q1 ops h) as [[[[r2 out2] q2] h2]|] eqn:Hrest;
        [|done].
      unfold ret in Hrun. simpl in Hrun. simplify_eq.
      destruct (IH _ _ _ _ _ Hv1 Hrest) as [Hout Hfin].
      rewrite Hel. simpl. by rewrite Hout, Hfin.
  - destruct (igraph_dqueue_empty q) eqn:Hemp.
    + apply bool_decide_eq_true in Hemp.
      pose proof (proj2 (elements_nil zero h q Hv) Hemp) as Hnil.
      rewrite Hnil. simpl. rewrite <- Hnil. by apply IH.
    + unfold bind in Hrun.
      destruct (pop_back_spec zero h q Hv (empty_end q Hemp))
        as (x1 & q1 & Hpop & Hv1 & _ & Hel).
      rewrite Hpop in Hrun. simpl in Hrun.
      destruct (run_ops zero q1 ops h) as [[[[r2 out2] q2] h2]|] eqn:Hrest;
        [|done].
      unfold ret in Hrun. simpl in Hrun. simplify_eq.
      destruct (IH _ _ _ _ _ Hv1 Hrest) as [Hout Hfin].
      rewrite Hel, last_snoc, removelast_last. simpl. by rewrite Hout, Hfin.
  - destruct (IH _ _ _ _ _ (clear_valid h q Hv) Hrun) as [Hout Hfin].
    by rewrite Hout, Hfin.
Qed.

Lemma destroy_spec h q :
  valid h q →
  ∃ h', igraph_dqueue_destroy q h = Some (set_stor_begin q 0, h') ∧
        mem h' = outside h q ∧
        blocks h' = delete (stor_begin q) (blocks h) ∧
        igraph_dqueue_destroy (set_stor_begin q 0) h'
        = Some (set_stor_begin q 0, h').
Proof.
  intros Hv. dq_open q Hv.
  unfold igraph_dqueue_destroy, bind, ret, igraph_Free, outside, capacity, NULL.
  dq_record. rewrite !decide_True by lia. rewrite decide_False by lia.
  rewrite Hblk. eexists. split; [reflexivity|]. dq_record.
  split_and!; done.
Qed.

Lemma init_success_spec h q size :
  alloc_pick h (if decide (size ≤ 0) then 1 else size) ≠ NULL →
  ∃ q' h', igraph_dqueue_init zero q size h = Some ((IGRAPH_SUCCESS, q'), h') ∧
           valid h' q' ∧
           capacity q' = Z.max size 1 ∧
           elements zero h' q' = [] ∧
           reads zero h' (stor_begin q') (capacity q')
           = replicate (Z.to_nat (capacity q')) zero ∧
           outside h' q' = mem h.
Proof.
  intros Hp. pose proof (init_spec zero h q size) as Hs. cbv zeta in Hs.
  rewrite decide_False in Hs by done. destruct Hs as (h' & Hrun & Hv).
  destruct (alloc_pick_fresh h _ Hp) as [Hpos Hfresh].
  revert Hrun Hv Hpos Hfresh Hp.
  set (n := if decide (size ≤ 0) then 1 else size).
  assert (n = Z.max size 1) as Hn by (unfold n; case_decide; lia).
  set (p := alloc_pick h n). intros Hrun Hv Hpos Hfresh Hp.
  assert (mem h' = fill_range p n zero (mem h)) as Hm.
  { unfold igraph_dqueue_init, bind, ret in Hrun. fold n in Hrun.
    rewrite calloc_ok in Hrun by done. fold p in Hrun.
    revert Hrun. dq_record. rewrite decide_False by done. by intros [= <-]. }
  eexists _, h'. split; [exact Hrun|]. unfold capacity. dq_record.
  split_and!; try done; try lia.
  - apply list_eq. intros i.
    destruct (decide (Z.of_nat i < p + n - p)) as [Hi|Hi].
    + rewrite lookup_reads by done. rewrite lookup_replicate_2 by lia.
      unfold read. rewrite Hm, lookup_fill_range, decide_True by lia. done.
    + rewrite !lookup_ge_None_2;
        [done|rewrite length_replicate; lia|rewrite length_reads; lia].
  - apply map_eq. intros a. rewrite outside_lookup. dq_record.
    case_decide as Ha.
    + symmetry. replace a with (p + (a - p)) by lia. apply Hfresh. lia.
    + rewrite Hm, lookup_fill_range. by rewrite decide_False by lia.
Qed.


Lemma push_capacity h q elem r q' h' :
  valid h q →
  igraph_dqueue_push zero q elem h = Some ((r, q'), h') →
  (igraph_dqueue_full q = true ∧ r = IGRAPH_SUCCESS ∧
   capacity q' = 2 * capacity q + 1) ∨
  ((igraph_dqueue_full q = false ∨ r = IGRAPH_ENOMEM) ∧
   capacity q' = capacity q).
Proof.
  intros Hv Hrun. destruct (decide (begin q = end_ q)) as [Hfull|Hnf].
  - destruct (decide (alloc_pick h (2 * capacity q + 1) = NULL)) as [Hg|Hg].
    + rewrite (push_fail_spec zero h q elem Hfull Hg) in Hrun. simplify_eq.
      right. split; [by right|done].
    + destruct (push_full_elements zero h q elem Hv Hfull Hg)
        as (q1 & h1 & Hrun1 & _ & Hcap & _).
      rewrite Hrun1 in Hrun. simplify_eq. left.
      split_and!; [by apply bool_decide_eq_true|done|done].
  - destruct (push_not_full_spec zero h q elem Hv Hnf)
      as (q1 & h1 & Hrun1 & _ & Hsb & Hse & _).
    rewrite Hrun1 in Hrun. simplify_eq. right.
    split; [left; by apply bool_decide_eq_false|].
    unfold capacity. by rewrite Hsb, Hse.
Qed.

Lemma run_ops_capacity ops : ∀ h q r out q' h',
  valid h q →
  run_ops zero q ops h = Some ((r, out, q'), h') →
  capacity q ≤ capacity q'.
Proof.
  induction ops as [|[elem| | |] ops IH]; intros h q r out q' h' Hv Hrun;
    simpl in Hrun.
  - unfold ret in Hrun. by simplify_eq.
  - unfold bind in Hrun.
    destruct (push_spec zero h q elem Hv) as (r1 & q1 & h1 & Hpush & Hcase).
    pose proof (push_capacity h q elem r1 q1 h1 Hv Hpush) as Hcap.
    assert (0 < capacity q)
      by (destruct Hv as (_ & ? & _); unfold capacity; lia).
    rewrite Hpush in Hrun. simpl in Hrun.
    destruct Hcase as [(-> & Hv1 & _)|(-> & -> & ->)].
    + pose proof (IH _ _ _ _ _ _ Hv1 Hrun). lia.
    + unfold ret in Hrun. by simplify_eq.
  - destruct (igraph_dqueue_empty q) eqn:Hemp; [by eapply IH|].
    unfold bind in Hrun.
    destruct (pop_spec zero h q Hv (empty_end q Hemp)) as (q1 & Hpop & Hv1 & Hc & _).
    rewrite Hpop in Hrun. simpl in Hrun.
    destruct (run_ops zero q1 ops h) as [[[[r2 out2] q2] h2]|] eqn:Hrest;
      [|done].
    unfold ret in Hrun. simpl in Hrun. simplify_eq.
    pose proof (IH _ _ _ _ _ _ Hv1 Hrest). lia.
  - destruct (igraph_dqueue_empty q) eqn:Hemp; [by eapply IH|].
    unfold bind in Hrun.
    destruct (pop_back_spec zero h q Hv (empty_end q Hemp))
      as (x1 & q1 & Hpop & Hv1 & Hc & _).
    rewrite Hpop in Hrun. simpl in Hrun.
    destruct (run_ops zero q1 ops h) as [[[[r2 out2] q2] h2]|] eqn:Hrest;
      [|done].
    unfold ret in Hrun. simpl in Hrun. simplify_eq.
    pose proof (IH _ _ _ _ _ _ Hv1 Hrest). lia.
  - pose proof (IH _ _ _ _ _ _ (clear_valid h q Hv) Hrun) as Hle.
    by destruct q.
Qed.

Lemma push_all_space es : ∀ h q q' h' c0,
  valid h q →
  capacity q ≤ Z.max c0 (2 * igraph_dqueue_size q - 1) →
  push_all zero q es h = Some ((IGRAPH_SUCCESS, q'), h') →
  capacity q' ≤ Z.max c0 (2 * igraph_dqueue_size q' - 1).
Proof.
  induction es as [|x es IH]; intros h q q' h' c0 Hv Hinv Hrun.
  - simpl in Hrun. unfold ret in Hrun. by simplify_eq.
  - simpl in Hrun. unfold bind in Hrun.
    destruct (push_spec zero h q x Hv) as (r & q1 & h1 & Hpush & Hcase).
    pose proof (push_capacity h q x r q1 h1 Hv Hpush) as Hcap.
    rewrite Hpush in Hrun. simpl in Hrun.
    destruct Hcase as [(-> & Hv1 & Hel)|(-> & _ & _)];
      [|unfold ret in Hrun; simplify_eq].
    apply (IH h1 q1 q' h' c0 Hv1); [|done].
    assert (igraph_dqueue_size q1 = igraph_dqueue_size q + 1) as Hsz.
    { rewrite (size_elements zero h1 q1 Hv1), (size_elements zero h q Hv), Hel.
      rewrite length_app. simpl. lia. }
    destruct Hcap as [(Hfull & _ & Hc)|(_ & Hc)].
    + apply (full_size h q Hv) in Hfull. lia.
    + lia.
Qed.

End more_facts.

Section printing_facts.

Context {BASE : Type} (zero : BASE).
Context (out_format : BASE → string).

Implicit Types (h : heap (BASE := BASE)) (q : igraph_dqueue).

Lemma fprint_loop_spec (fuel : nat) : ∀ p stop file h,
  p ≤ stop →
  (∀ a, p ≤ a < stop → is_Some (mem h !! a)) →
  (Z.to_nat (stop - p) ≤ fuel)%nat →
  fprint_loop out_format fuel p stop file h
  = Some (Some (file ++ ((λ y, String.append " " (out_format y))
                           <$> reads zero h p (stop - p))), h).
Proof.
  induction fuel as [|fuel IH]; intros p stop file h Hle Hlive Hfuel.
  - assert (p = stop) as -> by lia. simpl.
    rewrite decide_False by (intros Hn; by apply Hn).
    rewrite reads_nil by lia. simpl. by rewrite app_nil_r.
  - simpl. case_decide as Hne.
    + unfold bind. rewrite (load_cell zero) by (apply Hlive; lia).
      rewrite IH; [|lia|intros a Ha; apply Hlive; lia|lia].
      rewrite (reads_cons zero h p (stop - p)) by lia.
      rewrite fmap_cons, <- app_assoc. simpl.
      by replace (stop - (p + 1)) with (stop - p - 1) by lia.
    + assert (p = stop) as -> by (destruct (decide (p = stop)); [done|tauto]).
      rewrite reads_nil by lia. simpl. by rewrite app_nil_r.
Qed.

Lemma fprint_spec (fuel : nat) h q file :
  valid h q →
  (Z.to_nat (capacity q) ≤ fuel)%nat →
  igraph_dqueue_fprint out_format fuel q file h
  = Some (Some (0, file ++ rendered out_format (elements zero h q)), h).
Proof.
  intros Hv. dq_open q Hv. unfold capacity, igraph_dqueue_fprint, elements, bind.
  dq_record. intros Hfuel.
  destruct (decide (e ≠ NULL)) as [Hne|He0]; unfold NULL in *.
  - rewrite (decide_False (P := e = 0)) by done.
    rewrite (load_cell zero) by (apply Hcell; lia).
    destruct (decide (e > b)) as [Hone|Htwo].
    + rewrite decide_True by lia.
      rewrite (fprint_loop_spec fuel);
        [|lia|intros a Ha; apply Hcell; lia|lia].
      unfold ret. rewrite (reads_cons zero h b (e - b)) by lia. simpl.
      rewrite <- !app_assoc. simpl.
      by replace (e - (b + 1)) with (e - b - 1) by lia.
    + rewrite decide_False by lia.
      rewrite (fprint_loop_spec fuel);
        [|lia|intros a Ha; apply Hcell; lia|lia].
      rewrite (fprint_loop_spec fuel);
        [|lia|intros a Ha; apply Hcell; lia|lia].
      unfold ret. rewrite (reads_cons zero h b (se - b)) by lia. simpl.
      rewrite fmap_app, <- !app_assoc. simpl.
      by replace (se - (b + 1)) with (se - b - 1) by lia.
  - assert (e = 0) as -> by (destruct (decide (e = 0)); [done|tauto]).
    rewrite decide_True by done. unfold ret. done.
Qed.

End printing_facts.

(** ** Theorems *)

Section more_theorems.

Context {BASE : Type} (zero : BASE).
Context {allocator : Allocator (BASE := BASE)}.
Context (out_format : BASE → string).

Implicit Types (h : heap (BASE := BASE)) (q : igraph_dqueue).

(** X1. On a well-formed queue igraph_dqueue_empty answers true exactly
    when igraph_dqueue_size answers 0. *)
Theorem X1_empty_iff_size_zero h q :
  valid h q → (igraph_dqueue_empty q = true ↔ igraph_dqueue_size q = 0).
Proof.
  intros Hv. dq_open q Hv.
  unfold igraph_dqueue_empty, igraph_dqueue_size. dq_record.
  rewrite bool_decide_eq_true. dq_split.
Qed.

(** X2. The size of a well-formed queue lies between 0 and the capacity
    of its buffer. *)
Theorem X2_size_within_capacity h q :
  valid h q → 0 ≤ igraph_dqueue_size q ≤ capacity q.
Proof.
  intros Hv. dq_open q Hv.
  unfold igraph_dqueue_size, capacity. dq_record. dq_split.
Qed.

(** X3. On a non-empty well-formed queue igraph_dqueue_head returns the
    element that the next igraph_dqueue_pop removes, the first of the
    elements, and leaves the heap as it is. *)
Theorem X3_head_is_what_pop_removes h q :
  valid h q →
  igraph_dqueue_empty q = false →
  ∃ x q', igraph_dqueue_head q h = Some (x, h) ∧
          igraph_dqueue_pop q h = Some ((x, q'), h) ∧
          elements zero h q = x :: elements zero h q'.
Proof.
  intros Hv Hne%empty_end.
  destruct (pop_spec zero h q Hv Hne) as (q' & Hpop & _ & _ & Hel).
  exists (read zero h (begin q)), q'. split_and!; [|done..].
  unfold igraph_dqueue_head. apply load_cell.
  apply (valid_cell h q); [done|]. by destruct Hv as (_ & _ & _ & _ & ? & _).
Qed.

(** X4. On a non-empty well-formed queue igraph_dqueue_back returns the
    element that the next igraph_dqueue_pop_back removes, the last of the
    elements, and leaves the heap as it is. *)
Theorem X4_back_is_what_pop_back_removes h q :
  valid h q →
  igraph_dqueue_empty q = false →
  ∃ x q', igraph_dqueue_back q h = Some (x, h) ∧
          igraph_dqueue_pop_back q h = Some ((x, q'), h) ∧
          elements zero h q = elements zero h q' ++ [x].
Proof.
  intros Hv Hne%empty_end.
  destruct (pop_back_spec zero h q Hv Hne) as (x & q' & Hpop & _ & _ & Hel).
  destruct (back_spec zero h q Hv Hne) as (y & l & Hback & Hl).
  rewrite Hl in Hel. apply app_inj_tail in Hel as [Hl' Hxy]. subst.
  eexists _, q'. split_and!; [exact Hback|exact Hpop|exact Hl].
Qed.

(** X5. igraph_dqueue_clear makes a well-formed queue empty (no elements,
    size 0) and keeps it well-formed on the same buffer: the storage
    bounds do not change and nothing is freed or written. *)
Theorem X5_clear_empties_and_keeps_buffer h q :
  valid h q →
  valid h (igraph_dqueue_clear q) ∧
  elements zero h (igraph_dqueue_clear q) = [] ∧
  igraph_dqueue_empty (igraph_dqueue_clear q) = true ∧
  igraph_dqueue_size (igraph_dqueue_clear q) = 0 ∧
  stor_begin (igraph_dqueue_clear q) = stor_begin q ∧
  stor_end (igraph_dqueue_clear q) = stor_end q.
Proof.
  intros Hv. pose proof (clear_valid h q Hv) as Hc.
  assert (elements zero h (igraph_dqueue_clear q) = []) as Hel by done.
  destruct (empty_elements zero h _ Hc Hel). by split_and!.
Qed.

(** X6. igraph_dqueue_destroy on a well-formed queue frees exactly the
    buffer: the heap afterwards is the heap outside the buffer, the block
    is no longer live, and [stor_begin] is NULL, so that destroying the
    queue once more does nothing. *)
Theorem X6_destroy_releases_buffer h q :
  valid h q →
  ∃ h', igraph_dqueue_destroy q h = Some (set_stor_begin q 0, h') ∧
        mem h' = outside h q ∧
        blocks h' = delete (stor_begin q) (blocks h) ∧
        igraph_dqueue_destroy (set_stor_begin q 0) h'
        = Some (set_stor_begin q 0, h').
Proof. apply destroy_spec. Qed.

(** X7. When the allocation of init fails, init returns IGRAPH_ENOMEM,
    leaves the heap as it was and sets only [stor_begin], to NULL; a
    destroy of that queue does nothing. *)
Theorem X7_init_failure_leaves_heap h q size :
  alloc_pick h (if decide (size ≤ 0) then 1 else size) = NULL →
  igraph_dqueue_init zero q size h = Some ((IGRAPH_ENOMEM, set_stor_begin q 0), h) ∧
  igraph_dqueue_destroy (set_stor_begin q 0) h = Some (set_stor_begin q 0, h).
Proof.
  intros Hp. pose proof (init_spec zero h q size) as Hs. cbv zeta in Hs.
  rewrite decide_True in Hs by done. split; [done|].
  unfold igraph_dqueue_destroy, set_stor_begin. dq_record.
  by rewrite decide_False by (intros Hn; by apply Hn).
Qed.

(** X8. When the allocation of init succeeds, init returns success with a
    well-formed empty queue whose capacity is the requested size, or 1 for
    a request of 0 or less; the buffer is zeroed and the heap outside the
    buffer is the heap before the call. *)
Theorem X8_init_success h q size :
  alloc_pick h (if decide (size ≤ 0) then 1 else size) ≠ NULL →
  ∃ q' h', igraph_dqueue_init zero q size h = Some ((IGRAPH_SUCCESS, q'), h') ∧
           valid h' q' ∧
           capacity q' = Z.max size 1 ∧
           elements zero h' q' = [] ∧
           reads zero h' (stor_begin q') (capacity q')
           = replicate (Z.to_nat (capacity q')) zero ∧
           outside h' q' = mem h.
Proof. apply init_success_spec. Qed.

(** X9. A push on a well-formed queue, whether it stores in place, grows
    the buffer or fails, touches no memory but the queue's own: the heap
    outside the buffer after the push is the heap outside the buffer
    before it. *)
Theorem X9_push_touches_only_its_buffer h q elem r q' h' :
  valid h q →
  igraph_dqueue_push zero q elem h = Some ((r, q'), h') →
  outside h' q' = outside h q.
Proof. apply push_frame. Qed.

(** X10. No leak: after init and any run of pushes, pops, pop_backs and
    clears, however often the buffer grew and whether or not the run
    ended in a failed push, destroy gives back the cells of the heap in
    which init was called. *)
Theorem X10_destroy_after_any_run_restores_heap
    q0 size h0 q1 h1 ops r out q2 h2 :
  igraph_dqueue_init zero q0 size h0 = Some ((IGRAPH_SUCCESS, q1), h1) →
  run_ops zero q1 ops h1 = Some ((r, out, q2), h2) →
  ∃ h3, igraph_dqueue_destroy q2 h2 = Some (set_stor_begin q2 0, h3) ∧
        mem h3 = mem h0.
Proof.
  intros Hinit Hrun.
  assert (valid h1 q1 ∧ outside h1 q1 = mem h0) as [Hv1 Hout1].
  { destruct (decide (alloc_pick h0 (if decide (size ≤ 0) then 1 else size)
                      = NULL)) as [Hp|Hp].
    - pose proof (init_spec zero h0 q0 size) as Hs. cbv zeta in Hs.
      rewrite decide_True in Hs by done. congruence.
    - destruct (init_success_spec zero h0 q0 size Hp)
        as (q' & h' & Hrun' & Hv & _ & _ & _ & Hout). by simplify_eq. }
  destruct (run_ops_frame zero ops h1 q1 r out q2 h2 Hv1 Hrun) as [Hv2 Hout2].
  destruct (destroy_spec h2 q2 Hv2) as (h3 & Hd & Hm & _).
  exists h3. split; [done|]. by rewrite Hm, Hout2.
Qed.

(** X11. A client that interleaves push, pop, pop_back and clear on a
    well-formed queue, popping only when the queue is not empty, sees
    what the same client sees on a plain list: when no push fails, the
    pops return the same values in the same order, the elements left are
    the list left, and size is its length. *)
Theorem X11_client_agrees_with_list h q ops out q' h' :
  valid h q →
  run_ops zero q ops h = Some ((IGRAPH_SUCCESS, out, q'), h') →
  out = (list_ops (elements zero h q) ops).1 ∧
  elements zero h' q' = (list_ops (elements zero h q) ops).2 ∧
  igraph_dqueue_size q'
  = Z.of_nat (length (list_ops (elements zero h q) ops).2).
Proof.
  intros Hv Hrun.
  destruct (run_ops_sim zero ops h q out q' h' Hv Hrun) as [Hout Hel].
  destruct (run_ops_frame zero ops h q _ out q' h' Hv Hrun) as [Hv' _].
  split_and!; [done|done|]. by rewrite (size_elements zero h' q' Hv'), Hel.
Qed.

(** X12. Memory safety: such a client never runs into undefined
    behaviour on a well-formed queue, whatever the allocator answers.
    Every load and store stays inside the buffer, the copies of the growth
    step do not overlap, and only live blocks are freed. *)
Theorem X12_client_never_undefined h q ops :
  valid h q →
  ∃ r out q' h', run_ops zero q ops h = Some ((r, out, q'), h').
Proof.
  intros Hv. destruct (run_ops_safe zero ops h q Hv) as [[[[r out] q'] h'] Hrun].
  by exists r, out, q', h'.
Qed.

(** X13. Indexed access is right outside one gap: for an index below the
    size, igraph_dqueue_e returns the element at that position in logical
    order when the queue lies in one piece, when the index falls into the
    first piece, or when the index is below [end - stor_begin]; the heap
    is left as it is. *)
Theorem X13_e_correct_outside_the_gap h q idx :
  valid h q →
  0 ≤ idx < igraph_dqueue_size q →
  begin q < end_ q ∨ idx < stor_end q - begin q ∨ idx < end_ q - stor_begin q →
  ∃ x, elements zero h q !! Z.to_nat idx = Some x ∧
       igraph_dqueue_e zero q idx h = Some (x, h).
Proof.
  intros Hv Hidx Hgap.
  pose proof (e_in_range zero h q (Z.to_nat idx) Hv) as He.
  rewrite Z2Nat.id in He by lia. rewrite He by lia.
  rewrite decide_False by lia.
  destruct (lookup_lt_is_Some_2 (elements zero h q) (Z.to_nat idx)) as [x Hx].
  { pose proof (size_elements zero h q Hv). lia. }
  exists x. by rewrite Hx.
Qed.



(** X16. igraph_dqueue_fprint on a well-formed queue, given as many
    rounds as the buffer has slots, returns 0 and appends to the file the
    elements in logical order, head first, separated by one space and
    followed by a newline; for an empty queue it appends the newline
    alone.  The heap is left as it is. *)
Theorem X16_fprint_writes_elements_in_order (fuel : nat) h q file :
  valid h q →
  (Z.to_nat (capacity q) ≤ fuel)%nat →
  igraph_dqueue_fprint out_format fuel q file h
  = Some (Some (0, file ++ rendered out_format (elements zero h q)), h).
Proof. apply fprint_spec. Qed.

(** X17. igraph_dqueue_pop does not notice an empty queue: on a
    well-formed empty queue it returns the stale content of the slot at
    [begin], moves [begin] on by one slot (back to [stor_begin] from the
    last slot), and the queue stays empty and well-formed. *)
Theorem X17_pop_on_empty_returns_stale_slot h q :
  valid h q →
  igraph_dqueue_empty q = true →
  ∃ q', igraph_dqueue_pop q h = Some ((read zero h (begin q), q'), h) ∧
        valid h q' ∧
        igraph_dqueue_empty q' = true ∧
        begin q' = (if decide (begin q + 1 = stor_end q) then stor_begin q
                    else begin q + 1).
Proof.
  intros Hv Hemp%bool_decide_eq_true. dq_open q Hv. simpl in Hemp. subst e.
  unfold igraph_dqueue_pop, bind, ret. dq_record.
  rewrite (load_cell zero) by (apply Hcell; lia).
  eexists. split; [reflexivity|].
  unfold valid, capacity, igraph_dqueue_empty, set_begin, set_end. dq_record.
  dq_split; split_and!; try done; try lia.
Qed.

(** X18. The buffer never shrinks: over any run of pushes, pops,
    pop_backs and clears on a well-formed queue the capacity at the end is
    at least the capacity at the start. *)
Theorem X18_capacity_never_shrinks h q ops r out q' h' :
  valid h q →
  run_ops zero q ops h = Some ((r, out, q'), h') →
  capacity q ≤ capacity q'.
Proof. apply run_ops_capacity. Qed.

(** X19. The space bound of the doubling policy: after init and the
    successful pushes of [es] the size is the number of elements pushed,
    and the capacity is at most the capacity init gave or twice that
    number less one, whichever is larger. *)
Theorem X19_pushes_space_bound q0 size h0 q1 h1 es q2 h2 :
  igraph_dqueue_init zero q0 size h0 = Some ((IGRAPH_SUCCESS, q1), h1) →
  push_all zero q1 es h1 = Some ((IGRAPH_SUCCESS, q2), h2) →
  igraph_dqueue_size q2 = Z.of_nat (length es) ∧
  capacity q2 ≤ Z.max (capacity q1) (2 * Z.of_nat (length es) - 1).
Proof.
  intros Hinit Hpush.
  destruct (init_valid zero h0 q0 size q1 h1 Hinit) as (Hv1 & Hel1 & _).
  destruct (push_all_spec zero es h1 q1 q2 h2 Hv1 Hpush) as [Hv2 Hel2].
  assert (igraph_dqueue_size q2 = Z.of_nat (length es)) as Hsz
    by (by rewrite (size_elements zero h2 q2 Hv2), Hel2, Hel1).
  split; [done|]. rewrite <- Hsz.
  apply (push_all_space zero es h1 q1 q2 h2 (capacity q1) Hv1); [lia|done].
Qed.

End more_theorems.

(** ** The further properties at concrete queues of integers *)

Module MoreExamples.

Import Examples.

(** init(1) on the empty heap. *)
Definition one_q : igraph_dqueue := mk_dqueue 1 0 1 2.
Definition one_h : heap := mk_heap [(1, 0)] [(1, 1)].

(** A client of that queue: the buffer grows once, is cleared and used
    again. *)
Definition busy_ops : list (dq_op (BASE := Z)) :=
  [OpPush 10; OpPush 20; OpPop; OpPush 30; OpPush 40; OpPopBack; OpClear;
   OpPush 50].
Definition busy_q : igraph_dqueue := mk_dqueue 2 3 2 5.
Definition busy_h : heap := mk_heap [(2, 50); (3, 20); (4, 30)] [(2, 3)].

(** A client of the wrapped queue [wrapped_q], which holds 3 and 4. *)
Definition mixed_ops : list (dq_op (BASE := Z)) :=
  [OpPush 5; OpPop; OpPopBack; OpPop; OpPop; OpPush 9].
Definition mixed_q : igraph_dqueue := mk_dqueue 2 3 1 4.
Definition mixed_h : heap := mk_heap [(1, 4); (2, 9); (3, 3)] [(1, 3)].

(** X1 run: the drained queue is empty and has size 0. *)
Lemma X1_witness :
  valid drained_h drained_q ∧
  (igraph_dqueue_empty drained_q = true ↔ igraph_dqueue_size drained_q = 0).
Proof.
  assert (valid drained_h drained_q) as Hv by compute_done.
  split; [exact Hv|]. exact (X1_empty_iff_size_zero drained_h drained_q Hv).
Defined.

(** X2 run: the full queue, size 2 of capacity 2. *)
Lemma X2_witness :
  valid full_h full_q ∧
  0 ≤ igraph_dqueue_size full_q ≤ capacity full_q.
Proof.
  assert (valid full_h full_q) as Hv by compute_done.
  split; [exact Hv|]. exact (X2_size_within_capacity full_h full_q Hv).
Defined.

(** X3 run: the head of the wrapped queue. *)
Lemma X3_witness :
  valid wrapped_h wrapped_q ∧
  igraph_dqueue_empty wrapped_q = false ∧
  ∃ x q', igraph_dqueue_head wrapped_q wrapped_h = Some (x, wrapped_h) ∧
          igraph_dqueue_pop wrapped_q wrapped_h = Some ((x, q'), wrapped_h) ∧
          elements 0 wrapped_h wrapped_q = x :: elements 0 wrapped_h q'.
Proof.
  assert (valid wrapped_h wrapped_q) as Hv by compute_done.
  assert (igraph_dqueue_empty wrapped_q = false) as Hne by run.
  split; [exact Hv|]. split; [exact Hne|].
  exact (X3_head_is_what_pop_removes 0 wrapped_h wrapped_q Hv Hne).
Defined.

(** X4 run: the back of the wrapped queue. *)
Lemma X4_witness :
  valid wrapped_h wrapped_q ∧
  igraph_dqueue_empty wrapped_q = false ∧
  ∃ x q', igraph_dqueue_back wrapped_q wrapped_h = Some (x, wrapped_h) ∧
          igraph_dqueue_pop_back wrapped_q wrapped_h
          = Some ((x, q'), wrapped_h) ∧
          elements 0 wrapped_h wrapped_q = elements 0 wrapped_h q' ++ [x].
Proof.
  assert (valid wrapped_h wrapped_q) as Hv by compute_done.
  assert (igraph_dqueue_empty wrapped_q = false) as Hne by run.
  split; [exact Hv|]. split; [exact Hne|].
  exact (X4_back_is_what_pop_back_removes 0 wrapped_h wrapped_q Hv Hne).
Defined.

(** X5 run: clearing the full queue. *)
Lemma X5_witness :
  valid full_h full_q ∧
  valid full_h (igraph_dqueue_clear full_q) ∧
  elements 0 full_h (igraph_dqueue_clear full_q) = [] ∧
  igraph_dqueue_empty (igraph_dqueue_clear full_q) = true ∧
  igraph_dqueue_size (igraph_dqueue_clear full_q) = 0 ∧
  stor_begin (igraph_dqueue_clear full_q) = stor_begin full_q ∧
  stor_end (igraph_dqueue_clear full_q) = stor_end full_q.
Proof.
  assert (valid full_h full_q) as Hv by compute_done.
  split; [exact Hv|].
  exact (X5_clear_empties_and_keeps_buffer 0 full_h full_q Hv).
Defined.

(** X6 run: destroying the full queue. *)
Lemma X6_witness :
  valid full_h full_q ∧
  ∃ h', igraph_dqueue_destroy full_q full_h
        = Some (set_stor_begin full_q 0, h') ∧
        mem h' = outside full_h full_q ∧
        blocks h' = delete (stor_begin full_q) (blocks full_h) ∧
        igraph_dqueue_destroy (set_stor_begin full_q 0) h'
        = Some (set_stor_begin full_q 0, h').
Proof.
  assert (valid full_h full_q) as Hv by compute_done.
  split; [exact Hv|]. exact (X6_destroy_releases_buffer full_h full_q Hv).
Defined.

(** X7 run: init(10) with the allocator that has four addresses. *)
Lemma X7_witness :
  alloc_pick (Allocator := tight) no_heap (if decide (10 ≤ 0) then 1 else 10)
  = NULL ∧
  igraph_dqueue_init (allocator := tight) 0 raw 10 no_heap
  = Some ((IGRAPH_ENOMEM, set_stor_begin raw 0), no_heap) ∧
  igraph_dqueue_destroy (set_stor_begin raw 0) no_heap
  = Some (set_stor_begin raw 0, no_heap).
Proof.
  assert (alloc_pick (Allocator := tight) no_heap
            (if decide (10 ≤ 0) then 1 else 10) = NULL) as Hp by run.
  split; [exact Hp|].
  exact (X7_init_failure_leaves_heap 0 no_heap raw 10 Hp).
Defined.

(** X8 run: init(3) on the empty heap. *)
Lemma X8_witness :
  alloc_pick (Allocator := roomy) no_heap (if decide (3 ≤ 0) then 1 else 3)
  ≠ NULL ∧
  ∃ q' h', igraph_dqueue_init (allocator := roomy) 0 raw 3 no_heap
           = Some ((IGRAPH_SUCCESS, q'), h') ∧
           valid h' q' ∧
           capacity q' = Z.max 3 1 ∧
           elements 0 h' q' = [] ∧
           reads 0 h' (stor_begin q') (capacity q')
           = replicate (Z.to_nat (capacity q')) 0 ∧
           outside h' q' = mem no_heap.
Proof.
  assert (alloc_pick (Allocator := roomy) no_heap
            (if decide (3 ≤ 0) then 1 else 3) ≠ NULL) as Hp
    by (intros H; vm_compute in H; discriminate H).
  split; [exact Hp|]. exact (X8_init_success 0 no_heap raw 3 Hp).
Defined.

(** X9 run: push(30) on the full queue, through the growth branch. *)
Lemma X9_witness :
  valid full_h full_q ∧
  igraph_dqueue_push (allocator := roomy) 0 full_q 30 full_h
  = Some ((IGRAPH_SUCCESS, grown_q), grown_h) ∧
  outside grown_h grown_q = outside full_h full_q.
Proof.
  assert (valid full_h full_q) as Hv by compute_done.
  assert (igraph_dqueue_push (allocator := roomy) 0 full_q 30 full_h
          = Some ((IGRAPH_SUCCESS, grown_q), grown_h)) as Hrun by run.
  split; [exact Hv|]. split; [exact Hrun|].
  exact (X9_push_touches_only_its_buffer 0 full_h full_q 30 _ _ _ Hv Hrun).
Defined.

(** X10 run: init(1), the client [busy_ops], destroy. *)
Lemma X10_witness :
  igraph_dqueue_init (allocator := roomy) 0 raw 1 no_heap
  = Some ((IGRAPH_SUCCESS, one_q), one_h) ∧
  run_ops (allocator := roomy) 0 one_q busy_ops one_h
  = Some ((IGRAPH_SUCCESS, [10; 40], busy_q), busy_h) ∧
  ∃ h3, igraph_dqueue_destroy busy_q busy_h
        = Some (set_stor_begin busy_q 0, h3) ∧
        mem h3 = mem no_heap.
Proof.
  assert (igraph_dqueue_init (allocator := roomy) 0 raw 1 no_heap
          = Some ((IGRAPH_SUCCESS, one_q), one_h)) as Hinit by run.
  assert (run_ops (allocator := roomy) 0 one_q busy_ops one_h
          = Some ((IGRAPH_SUCCESS, [10; 40], busy_q), busy_h)) as Hrun by run.
  split; [exact Hinit|]. split; [exact Hrun|].
  exact (X10_destroy_after_any_run_restores_heap 0 raw 1 no_heap _ _ busy_ops
           _ _ _ _ Hinit Hrun).
Defined.

(** X11 run: the client [mixed_ops] on the wrapped queue. *)
Lemma X11_witness :
  valid wrapped_h wrapped_q ∧
  run_ops (allocator := roomy) 0 wrapped_q mixed_ops wrapped_h
  = Some ((IGRAPH_SUCCESS, [3; 5; 4], mixed_q), mixed_h) ∧
  [3; 5; 4] = (list_ops (elements 0 wrapped_h wrapped_q) mixed_ops).1 ∧
  elements 0 mixed_h mixed_q
  = (list_ops (elements 0 wrapped_h wrapped_q) mixed_ops).2 ∧
  igraph_dqueue_size mixed_q
  = Z.of_nat (length (list_ops (elements 0 wrapped_h wrapped_q) mixed_ops).2).
Proof.
  assert (valid wrapped_h wrapped_q) as Hv by compute_done.
  assert (run_ops (allocator := roomy) 0 wrapped_q mixed_ops wrapped_h
          = Some ((IGRAPH_SUCCESS, [3; 5; 4], mixed_q), mixed_h)) as Hrun
    by run.
  split; [exact Hv|]. split; [exact Hrun|].
  exact (X11_client_agrees_with_list 0 wrapped_h wrapped_q mixed_ops _ _ _
           Hv Hrun).
Defined.

(** X12 run: a client of the full queue whose first push cannot grow the
    buffer. *)
Lemma X12_witness :
  valid full_h full_q ∧
  ∃ r out q' h',
    run_ops (allocator := tight) 0 full_q [OpPush 1; OpPop] full_h
    = Some ((r, out, q'), h').
Proof.
  assert (valid full_h full_q) as Hv by compute_done.
  split; [exact Hv|].
  exact (X12_client_never_undefined 0 full_h full_q [OpPush 1; OpPop] Hv).
Defined.

(** X13 run: index 0 of the wrapped queue lies in the first piece. *)
Lemma X13_witness :
  valid wrapped_h wrapped_q ∧
  0 ≤ 0 < igraph_dqueue_size wrapped_q ∧
  (begin wrapped_q < end_ wrapped_q ∨
   0 < stor_end wrapped_q - begin wrapped_q ∨
   0 < end_ wrapped_q - stor_begin wrapped_q) ∧
  ∃ x, elements 0 wrapped_h wrapped_q !! Z.to_nat 0 = Some x ∧
       igraph_dqueue_e 0 wrapped_q 0 wrapped_h = Some (x, wrapped_h).
Proof.
  assert (valid wrapped_h wrapped_q) as Hv by compute_done.
  assert (0 ≤ 0 < igraph_dqueue_size wrapped_q) as Hidx by (vm_compute; done).
  assert (begin wrapped_q < end_ wrapped_q ∨
          0 < stor_end wrapped_q - begin wrapped_q ∨
          0 < end_ wrapped_q - stor_begin wrapped_q) as Hgap
    by (right; left; vm_compute; done).
  split; [exact Hv|]. split; [exact Hidx|]. split; [exact Hgap|].
  exact (X13_e_correct_outside_the_gap 0 wrapped_h wrapped_q 0 Hv Hidx Hgap).
Defined.



(** X16 run: printing the wrapped queue in decimal. *)
Lemma X16_witness :
  valid wrapped_h wrapped_q ∧
  (Z.to_nat (capacity wrapped_q) ≤ 3)%nat ∧
  igraph_dqueue_fprint (pretty : Z → string) 3 wrapped_q [] wrapped_h
  = Some (Some (0, [] ++ rendered pretty (elements 0 wrapped_h wrapped_q)),
          wrapped_h) ∧
  rendered (pretty : Z → string) (elements 0 wrapped_h wrapped_q)
  = ["3"; " 4"; newline].
Proof.
  assert (valid wrapped_h wrapped_q) as Hv by compute_done.
  assert (Z.to_nat (capacity wrapped_q) ≤ 3)%nat as Hfuel by (vm_compute; lia).
  split; [exact Hv|]. split; [exact Hfuel|].
  split; [|run].
  exact (X16_fprint_writes_elements_in_order 0 pretty 3 wrapped_h wrapped_q []
           Hv Hfuel).
Defined.

(** X17 run: pop on the drained queue. *)
Lemma X17_witness :
  valid drained_h drained_q ∧
  igraph_dqueue_empty drained_q = true ∧
  ∃ q', igraph_dqueue_pop drained_q drained_h
        = Some ((read 0 drained_h (begin drained_q), q'), drained_h) ∧
        valid drained_h q' ∧
        igraph_dqueue_empty q' = true ∧
        begin q' = (if decide (begin drained_q + 1 = stor_end drained_q)
                    then stor_begin drained_q else begin drained_q + 1).
Proof.
  assert (valid drained_h drained_q) as Hv by compute_done.
  assert (igraph_dqueue_empty drained_q = true) as Hemp by run.
  split; [exact Hv|]. split; [exact Hemp|].
  exact (X17_pop_on_empty_returns_stale_slot 0 drained_h drained_q Hv Hemp).
Defined.

(** X18 run: the client [busy_ops] on the queue of capacity 1. *)
Lemma X18_witness :
  valid one_h one_q ∧
  run_ops (allocator := roomy) 0 one_q busy_ops one_h
  = Some ((IGRAPH_SUCCESS, [10; 40], busy_q), busy_h) ∧
  capacity one_q ≤ capacity busy_q.
Proof.
  assert (valid one_h one_q) as Hv by compute_done.
  assert (run_ops (allocator := roomy) 0 one_q busy_ops one_h
          = Some ((IGRAPH_SUCCESS, [10; 40], busy_q), busy_h)) as Hrun by run.
  split; [exact Hv|]. split; [exact Hrun|].
  exact (X18_capacity_never_shrinks 0 one_h one_q busy_ops _ _ _ _ Hv Hrun).
Defined.

(** X19 run: init(1) and four pushes; the buffer ends with 7 slots. *)
Lemma X19_witness :
  igraph_dqueue_init (allocator := roomy) 0 raw 1 no_heap
  = Some ((IGRAPH_SUCCESS, one_q), one_h) ∧
  push_all (allocator := roomy) 0 one_q [10; 20; 30; 40] one_h
  = Some ((IGRAPH_SUCCESS, long_q), long_h) ∧
  igraph_dqueue_size long_q = 4 ∧
  capacity long_q ≤ Z.max (capacity one_q) (2 * 4 - 1).
Proof.
  assert (igraph_dqueue_init (allocator := roomy) 0 raw 1 no_heap
          = Some ((IGRAPH_SUCCESS, one_q), one_h)) as Hinit by run.
  assert (push_all (allocator := roomy) 0 one_q [10; 20; 30; 40] one_h
          = Some ((IGRAPH_SUCCESS, long_q), long_h)) as Hpush by run.
  split; [exact Hinit|]. split; [exact Hpush|].
  exact (X19_pushes_space_bound 0 raw 1 no_heap _ _ [10; 20; 30; 40] _ _
           Hinit Hpush).
Defined.

End MoreExamples.
